(** * Tetragon tracing sensors: kprobe options and selector tests

    A shallow embedding of [pkg/sensors/tracing/options.go] and of the
    data and helpers of [pkg/sensors/tracing/selectors_test.go], with the
    properties of the selector subsystem stated over them. *)

From Stdlib Require Import Ascii String.
From stdpp Require Import gmap strings list pretty.

Open Scope string_scope.
Open Scope Z_scope.

(** ** The parts of Go's [strconv] the package calls *)

Module strconv.

Inductive Cause := ErrSyntax | ErrRange.

(** [*strconv.NumError]: the failing function, the input and the cause. *)
Record NumError := mkNumError { Func : string; Num : string; Err : Cause }.

Definition syntaxError (fn str : string) : NumError := mkNumError fn str ErrSyntax.
Definition rangeError (fn str : string) : NumError := mkNumError fn str ErrRange.

(** [ParseBool] accepts 1, t, T, TRUE, true, True, 0, f, F, FALSE, false,
    False; any other value returns an error (and the value false). *)
Definition ParseBool (str : string) : bool * option NumError :=
  if bool_decide (str ∈ ["1"; "t"; "T"; "true"; "TRUE"; "True"]) then (true, None)
  else if bool_decide (str ∈ ["0"; "f"; "F"; "false"; "FALSE"; "False"]) then (false, None)
  else (false, Some (syntaxError "ParseBool" str)).

End strconv.

(** Go's [error] values that the package produces: a [strconv] error, or the
    result of [fmt.Errorf("failed to set option %s: %s", name, err)]. *)
Inductive error :=
| NumErr (e : strconv.NumError)
| FailedToSetOption (name : string) (cause : error).

(** ** The policy types *)

(** The types of [pkg/k8s/apis/cilium.io/v1alpha1] with the fields that the
    package and its tests set; a field they leave out has Go's zero value.
    Fields of different structs that share a name in Go ([Operator],
    [Values], [Index]) are told apart by a prefix. *)
Module v1alpha1.
Record OptionSpec := mkOptionSpec { Name : string; Value : string }.
Record PIDSelector := mkPIDSelector {
  Operator : string;
  Values : list Z;
  IsNamespacePID : bool;
  FollowForks : bool
}.
Record ArgSelector := mkArgSelector {
  Index : Z;
  ArgOperator : string;
  ArgValues : list string
}.
Record KProbeSelector := mkKProbeSelector {
  MatchPIDs : list PIDSelector;
  MatchArgs : list ArgSelector
}.
Record KProbeArg := mkKProbeArg { ArgIndex : Z; Type_ : string }.
Record TracepointSpec := mkTracepointSpec {
  Subsystem : string;
  Event : string;
  Args : list KProbeArg;
  Selectors : list KProbeSelector
}.
End v1alpha1.

(** ** options.go *)

Record kprobeOptions := mkKprobeOptions { DisableKprobeMulti : bool }.

(** One line written by [logger.GetLogger().Infof("Set option %s = %s", ...)]. *)
Inductive logline := SetOption (name value : string).

Section Options.

(** [option.KeyDisableKprobeMulti], declared in [pkg/option]. *)
Variable KeyDisableKprobeMulti : string.

(** The local [opt] struct: a name and a setter. The setter is a closure
    over [options]; here it takes and returns the struct it mutates. *)
Record opt := mkOpt {
  name : string;
  set : string -> kprobeOptions -> kprobeOptions * option error
}.

Definition opts : list opt :=
  [ mkOpt KeyDisableKprobeMulti
      (fun str _ =>
         let '(b, err) := strconv.ParseBool str in
         (mkKprobeOptions b, NumErr <$> err)) ].

(** State of the loops: the struct behind [options] and the log so far. *)
Definition loopState : Type := kprobeOptions * list logline.

(** The inner [for j := range opts] for one spec: [inr] is the early
    [return nil, fmt.Errorf(...)], with the log written until then. *)
Fixpoint range_opts (os : list opt) (spec : v1alpha1.OptionSpec) (st : loopState)
  : loopState + error * list logline :=
  match os with
  | [] => inl st
  | o :: os' =>
      if decide (name o = v1alpha1.Name spec) then
        match set o (v1alpha1.Value spec) (fst st) with
        | (_, Some err) => inr (FailedToSetOption (name o) err, snd st)
        | (options', None) =>
            range_opts os' spec
              (options',
               (snd st ++ [SetOption (v1alpha1.Name spec) (v1alpha1.Value spec)])%list)
        end
      else range_opts os' spec st
  end.

(** The outer [for i := range specs]. *)
Fixpoint range_specs (specs : list v1alpha1.OptionSpec) (st : loopState)
  : loopState + error * list logline :=
  match specs with
  | [] => inl st
  | spec :: specs' =>
      match range_opts opts spec st with
      | inl st' => range_specs specs' st'
      | inr e => inr e
      end
  end.

(** [getKprobeOptions] returns a pointer to the options and an error,
    [None] standing for nil; the third component is what it logged. *)
Definition getKprobeOptions_log (specs : list v1alpha1.OptionSpec)
  : option kprobeOptions * option error * list logline :=
  match range_specs specs (mkKprobeOptions false, []) with
  | inl (options, log) => (Some options, None, log)
  | inr (e, log) => (None, Some e, log)
  end.

Definition getKprobeOptions (specs : list v1alpha1.OptionSpec)
  : option kprobeOptions * option error :=
  fst (getKprobeOptions_log specs).

End Options.

(** [ParseBool] accepts the value of the spec. *)
Definition accepted (s : v1alpha1.OptionSpec) : Prop :=
  snd (strconv.ParseBool (v1alpha1.Value s)) = None.

(** The value [ParseBool] returns for the spec. *)
Definition parsed (s : v1alpha1.OptionSpec) : bool :=
  fst (strconv.ParseBool (v1alpha1.Value s)).

(** The line logged for a spec that was set. *)
Definition logged (s : v1alpha1.OptionSpec) : logline :=
  SetOption (v1alpha1.Name s) (v1alpha1.Value s).

(** ** selectors_test.go: the test table and its helpers *)

(** Go's [uint32(x)] conversion of an integer. *)
Definition uint32 (x : Z) : Z := x `mod` 2 ^ 32.

(** [fmt.Sprintf("%d", x)] for an [int]. *)
Definition Sprintf_d (x : Z) : string := pretty x.


Record testCase := mkTestCase {
  (* whence values of the lseek calls the test performs *)
  lseekOpsVals : list Z;
  (* map from whence values to the frequency observed in the events *)
  expectedArgs : gmap Z Z
}.

Record testSpec := mkTestSpec {
  specOperator : string;
  specFilterVals : list (list Z);
  tests : list testCase
}.

Definition testCases : list testSpec := [
  mkTestSpec "Equal" [[4443]; [9999]] [
    mkTestCase [4444; 4443] {[4443 := 1]};
    mkTestCase [4443; 4444; 4443] {[4443 := 2]};
    mkTestCase [9999; 4443] {[4443 := 1; 9999 := 1]};
    mkTestCase [9999; 4444] {[9999 := 1]} ];
  mkTestSpec "Equal" [[4444]; [9999]] [
    mkTestCase [4444; 4443] {[4444 := 1]};
    mkTestCase [4443; 4444; 4443] {[4444 := 1]};
    mkTestCase [9999; 4443] {[9999 := 1]};
    mkTestCase [9999; 4444] {[9999 := 1; 4444 := 1]} ];
  mkTestSpec "InMap" [[4443]; [9999]] [
    mkTestCase [4444; 4443] {[4443 := 1]};
    mkTestCase [4443; 4444; 4443] {[4443 := 2]};
    mkTestCase [9999; 4443] {[4443 := 1; 9999 := 1]};
    mkTestCase [9999; 4444] {[9999 := 1]} ];
  mkTestSpec "InMap" [[4444]; [9999]] [
    mkTestCase [4444; 4443] {[4444 := 1]};
    mkTestCase [4443; 4444; 4443] {[4444 := 1]};
    mkTestCase [9999; 4443] {[9999 := 1]};
    mkTestCase [9999; 4444] {[9999 := 1; 4444 := 1]} ];
  mkTestSpec "Equal" [[8888]; [8889]; [4443]] [
    mkTestCase [4444; 4443] {[4443 := 1]} ]
].

(** The counter update of [runAndCheck]'s callback:
    [ret[whence] = ret[whence] + 1], a missing key reading as 0. *)
Definition count_whence (ret : gmap Z Z) (whence : Z) : gmap Z Z :=
  <[whence := default 0 (ret !! whence) + 1]> ret.

(** An argument of an event, a Go [interface{}]: a [uint64] or another type. *)
Inductive ArgVal := ArgUint64 (v : Z) | ArgOther.

(** The [notify.Message] values the callback tells apart: a
    [*tracing.MsgGenericTracepointUnix], or a message of another type. *)
Inductive Message :=
| MsgGenericTracepointUnix (Subsys Event : string) (Args : list ArgVal)
| MsgOther.

Section RunAndCheck.

(** [testsensor.BogusWhenceVal], declared in [pkg/sensors/test]. *)
Variable BogusWhenceVal : Z.

(** The callback that [runAndCheck] of [TestTracepointSelectors] hands to
    [perfring.RunSubTest]: the counter afterwards, or the error returned. *)
Definition checkEvent (ret : gmap Z Z) (ev : Message) : gmap Z Z + string :=
  match ev with
  | MsgGenericTracepointUnix subsys event args =>
      if decide (subsys <> "syscalls" \/ event <> "sys_enter_lseek")
      then inr "unexpected tracepoint event"
      else if decide (length args <> 1%nat)
      then inr "unexpected tracepoint arguments"
      else
        match args !! 0%nat with
        | Some (ArgUint64 whence) =>
            if decide (whence = BogusWhenceVal `mod` 2 ^ 64) then inl ret
            else inl (count_whence ret whence)
        | _ => inr "unexpected tracepoint arguments"
        end
  | MsgOther => inl ret
  end.

End RunAndCheck.

Section SelectorsFromWhenceVals.

(** [observer.GetMyPid()], a [uint32]. *)
Variable GetMyPid : Z.

Definition myPidMatchPIDs : list v1alpha1.PIDSelector :=
  [ v1alpha1.mkPIDSelector "In" [uint32 GetMyPid] false true ].

(** [whences := make([]string, len(whenceVals))] followed by
    [for i := range whenceVals { whences[i] = fmt.Sprintf("%d", whenceVals[i]) }];
    [n] counts the iterations left. *)
Fixpoint fill_whences (whenceVals : list Z) (i : nat) (n : nat) (whences : list string)
  : list string :=
  match n with
  | O => whences
  | S n' =>
      fill_whences whenceVals (S i) n'
        (<[i := Sprintf_d (default 0 (whenceVals !! i))]> whences)
  end.

Definition make_whences (whenceVals : list Z) : list string :=
  fill_whences whenceVals 0 (length whenceVals) (replicate (length whenceVals) "").

(** The [for _, whenceVals := range filterWhenceVals] loop, appending to [sels]. *)
Fixpoint range_filterWhenceVals (filterWhenceVals : list (list Z)) (whenceIdx : Z)
    (filterOperator : string) (sels : list v1alpha1.KProbeSelector)
  : list v1alpha1.KProbeSelector :=
  match filterWhenceVals with
  | [] => sels
  | whenceVals :: rest =>
      range_filterWhenceVals rest whenceIdx filterOperator
        (sels ++ [ v1alpha1.mkKProbeSelector myPidMatchPIDs
                     [ v1alpha1.mkArgSelector whenceIdx filterOperator
                         (make_whences whenceVals) ] ])%list
  end.

(** The selector the loop builds for one inner value list, with the slice
    of strings already filled. *)
Definition selector_of (whenceIdx : Z) (filterOperator : string) (whenceVals : list Z)
  : v1alpha1.KProbeSelector :=
  v1alpha1.mkKProbeSelector myPidMatchPIDs
    [ v1alpha1.mkArgSelector whenceIdx filterOperator (Sprintf_d <$> whenceVals) ].

Definition selectorsFromWhenceVals (filterWhenceVals : list (list Z)) (whenceIdx : Z)
    (filterOperator : string) : list v1alpha1.KProbeSelector :=
  let sels := range_filterWhenceVals filterWhenceVals whenceIdx filterOperator [] in
  if decide (length sels = 0%nat) then
    (sels ++ [ v1alpha1.mkKProbeSelector myPidMatchPIDs [] ])%list
  else sels.

(** [makeSpec] of [TestTracepointSelectors], with [whenceIdx := uint32(7)]. *)
Definition whenceIdx : Z := uint32 7.

Definition makeSpec (filterWhenceVals : list (list Z)) (filterOperator : string)
  : v1alpha1.TracepointSpec :=
  v1alpha1.mkTracepointSpec "syscalls" "sys_enter_lseek"
    [ v1alpha1.mkKProbeArg whenceIdx "" ]
    (selectorsFromWhenceVals filterWhenceVals whenceIdx filterOperator).

End SelectorsFromWhenceVals.

(** ** selectors_test.go: the clone-tester output parser *)

(** The fragment of Go's [regexp] that the three patterns use: literal text
    and capturing groups [(\d+)]. *)
Module regexp.

Inductive item := Lit (s : string) | Digits.
Definition Regexp := list item.

(** [\d] is an ASCII digit. *)
Definition is_digit (c : ascii) : bool :=
  (48 <=? nat_of_ascii c)%nat && (nat_of_ascii c <=? 57)%nat.

Fixpoint strip_prefix (p s : string) : option string :=
  match p, s with
  | EmptyString, _ => Some s
  | String a p', String b s' => if decide (a = b) then strip_prefix p' s' else None
  | String _ _, EmptyString => None
  end.

(** The longest run of digits at the head of [s], and what follows it. *)
Fixpoint span_digits (s : string) : string * string :=
  match s with
  | String c s' =>
      if is_digit c then let '(d, rest) := span_digits s' in (String c d, rest)
      else (EmptyString, s)
  | EmptyString => (EmptyString, EmptyString)
  end.

(** A match starting at the head of [s]: the matched text and the groups.
    [\d+] is greedy; in the patterns below a group is always followed by a
    literal that starts with a non-digit, so the longest run is the only
    candidate. *)
Fixpoint match_here (r : Regexp) (s : string) : option (string * list string) :=
  match r with
  | [] => Some (EmptyString, [])
  | Lit p :: r' =>
      rest ← strip_prefix p s;
      '(m, groups) ← match_here r' rest;
      Some (p +:+ m, groups)
  | Digits :: r' =>
      let '(d, rest) := span_digits s in
      if decide (d = EmptyString) then None
      else '(m, groups) ← match_here r' rest; Some (d +:+ m, d :: groups)
  end.

(** [FindStringSubmatch]: the leftmost match, as the matched text followed
    by the groups; the empty (nil) slice when there is none. *)
Fixpoint FindStringSubmatch (r : Regexp) (s : string) : list string :=
  match match_here r s with
  | Some (m, groups) => m :: groups
  | None =>
      match s with
      | EmptyString => []
      | String _ s' => FindStringSubmatch r s'
      end
  end.

End regexp.

Module strconv_uint.
Import strconv.

Definition maxUint64 : Z := 2 ^ 64 - 1.

(** The digit loop of [ParseUint(s, 10, bitSize)] on the accumulator [n]:
    the result and the error. *)
Fixpoint parse_digits (s0 : string) (maxVal : Z) (s : string) (n : Z)
  : Z * option NumError :=
  match s with
  | EmptyString => (n, None)
  | String c s' =>
      if negb (regexp.is_digit c) then (0, Some (syntaxError "ParseUint" s0))
      else
        let d := Z.of_nat (nat_of_ascii c) - 48 in
        let cutoff := maxUint64 `div` 10 + 1 in
        if decide (cutoff <= n) then (maxVal, Some (rangeError "ParseUint" s0))
        else
          let n := n * 10 in
          let n1 := (n + d) `mod` 2 ^ 64 in
          if decide (n1 < n \/ maxVal < n1) then (maxVal, Some (rangeError "ParseUint" s0))
          else parse_digits s0 maxVal s' n1
  end.

(** [strconv.ParseUint(s, 10, 32)]. *)
Definition ParseUint_10_32 (s : string) : Z * option NumError :=
  if decide (s = EmptyString) then (0, Some (syntaxError "ParseUint" s))
  else parse_digits s (2 ^ 32 - 1) s 0.

End strconv_uint.

Record cloneTesterInfo := mkCloneTesterInfo {
  parentPid : Z; parentTid : Z;
  child1Pid : Z; child1Tid : Z; parentChild1Pid : Z;
  thread1Pid : Z; thread1Tid : Z; parentThread1Pid : Z
}.

Definition tab : string := String "009"%char EmptyString.
Definition dquote : string := String "034"%char EmptyString.

(** [parent:\t\t\(pid:(\d+), tid:(\d+), ppid:(\d+)\)\tstarts] *)
Definition parentRe : regexp.Regexp :=
  [ regexp.Lit ("parent:" +:+ tab +:+ tab +:+ "(pid:"); regexp.Digits;
    regexp.Lit ", tid:"; regexp.Digits; regexp.Lit ", ppid:"; regexp.Digits;
    regexp.Lit (")" +:+ tab +:+ "starts") ].

(** [Child 1:\t\(pid:(\d+), tid:(\d+), ppid:(\d+)\)\topen] *)
Definition cloneChild1Re : regexp.Regexp :=
  [ regexp.Lit ("Child 1:" +:+ tab +:+ "(pid:"); regexp.Digits;
    regexp.Lit ", tid:"; regexp.Digits; regexp.Lit ", ppid:"; regexp.Digits;
    regexp.Lit (")" +:+ tab +:+ "open") ].

(** [Thread 1:\t\(pid:(\d+), tid:(\d+), ppid:(\d+)\)\topen] *)
Definition cloneThread1Re : regexp.Regexp :=
  [ regexp.Lit ("Thread 1:" +:+ tab +:+ "(pid:"); regexp.Digits;
    regexp.Lit ", tid:"; regexp.Digits; regexp.Lit ", ppid:"; regexp.Digits;
    regexp.Lit (")" +:+ tab +:+ "open") ].

(** [match[i]]; the patterns have three groups, so 1, 2 and 3 are in range
    whenever the slice is not empty. *)
Definition idx (m : list string) (i : nat) : string := default EmptyString (m !! i).

(** One [v, err = strconv.ParseUint(...); if err == nil { field = uint32(v) }]:
    the new value of the field and the new value of [err]. *)
Definition parse_field (s : string) (old : Z) : Z * option error :=
  let '(v, err) := strconv_uint.ParseUint_10_32 s in
  (match err with None => uint32 v | Some _ => old end, NumErr <$> err).

Definition ParseLine (cti : cloneTesterInfo) (l : string) : cloneTesterInfo * option error :=
  let m := regexp.FindStringSubmatch parentRe l in
  if decide (0 < length m)%nat then
    let '(pid, _) := parse_field (idx m 1) (parentPid cti) in
    let '(tid, err) := parse_field (idx m 2) (parentTid cti) in
    (mkCloneTesterInfo pid tid
       (child1Pid cti) (child1Tid cti) (parentChild1Pid cti)
       (thread1Pid cti) (thread1Tid cti) (parentThread1Pid cti), err)
  else
  let m := regexp.FindStringSubmatch cloneChild1Re l in
  if decide (0 < length m)%nat then
    let '(pid, _) := parse_field (idx m 1) (child1Pid cti) in
    let '(tid, _) := parse_field (idx m 2) (child1Tid cti) in
    let '(ppid, err) := parse_field (idx m 3) (parentChild1Pid cti) in
    (mkCloneTesterInfo (parentPid cti) (parentTid cti)
       pid tid ppid
       (thread1Pid cti) (thread1Tid cti) (parentThread1Pid cti), err)
  else
  let m := regexp.FindStringSubmatch cloneThread1Re l in
  if decide (0 < length m)%nat then
    let '(pid, _) := parse_field (idx m 1) (thread1Pid cti) in
    let '(tid, _) := parse_field (idx m 2) (thread1Tid cti) in
    let '(ppid, err) := parse_field (idx m 3) (parentThread1Pid cti) in
    (mkCloneTesterInfo (parentPid cti) (parentTid cti)
       (child1Pid cti) (child1Tid cti) (parentChild1Pid cti)
       pid tid ppid, err)
  else (cti, None).

(** The lines of [sampleCloneTesterOutput] that carry process ids. *)
Definition sample_parent : string :=
  "parent:" +:+ tab +:+ tab +:+ "(pid:143563, tid:143563, ppid:7860)" +:+ tab +:+ "starts".
Definition sample_thread1 : string :=
  "Thread 1:" +:+ tab +:+ "(pid:143564, tid:143565, ppid:143563)" +:+ tab
  +:+ "open(" +:+ dquote +:+ "/etc/issue" +:+ dquote +:+ ") succeeded".
Definition sample_child1 : string :=
  "Child 1:" +:+ tab +:+ "(pid:143564, tid:143564, ppid:143563)" +:+ tab
  +:+ "open(" +:+ dquote +:+ "/etc/issue" +:+ dquote +:+ ") succeeded".
Definition sample_exit : string :=
  "parent:" +:+ tab +:+ tab +:+ "(pid:143563, tid:143563, ppid:7860)" +:+ tab
  +:+ "child1 (143564) exited with: 0".

(** A line of the parent pattern whose pid does not fit 32 bits. *)
Definition wide_pid_line : string :=
  "parent:" +:+ tab +:+ tab +:+ "(pid:4294967296, tid:7, ppid:1)" +:+ tab +:+ "starts".

(** ** The frequency map a test case expects *)

(** OR of the alternatives: the value is a member of at least one of the
    value lists of the filter. *)
Definition passes (filterVals : list (list Z)) (v : Z) : Prop :=
  Exists (fun vals => v ∈ vals) filterVals.

#[global] Instance passes_dec filterVals v : Decision (passes filterVals v).
Proof. unfold passes. apply _. Defined.

(** The map [runAndCheck] builds when the events it sees are the calls
    that pass the filter, each counted once. *)
Definition observed (filterVals : list (list Z)) (ops : list Z) : gmap Z Z :=
  foldl count_whence ∅ (filter (passes filterVals) ops).

(** How many of the calls use the value. *)
Definition calls_with (v : Z) (ops : list Z) : Z :=
  Z.of_nat (length (filter (fun x => x = v) ops)).

(** ** selectors_test.go: the lines that the three patterns describe *)

(** Every character of the string is an ASCII digit. *)
Fixpoint all_digits (s : string) : bool :=
  match s with
  | EmptyString => true
  | String c s' => regexp.is_digit c && all_digits s'
  end.

(** The string is empty or starts with a character that is not a digit. *)
Definition starts_nondigit (s : string) : Prop :=
  match s with
  | EmptyString => True
  | String c _ => regexp.is_digit c = false
  end.

(** The string starts with a character that is not a digit. *)
Definition nondigit_head (s : string) : Prop :=
  match s with
  | EmptyString => False
  | String c _ => regexp.is_digit c = false
  end.

(** A run of one or more digits, what a group [(\d+)] captures. *)
Definition digit_run (d : string) : Prop := all_digits d = true /\ d <> EmptyString.

(** The number that a string of decimal digits denotes after the digits
    already read as [n]. *)
Fixpoint digits_value (s : string) (n : Z) : Z :=
  match s with
  | EmptyString => n
  | String c s' => digits_value s' (n * 10 + (Z.of_nat (nat_of_ascii c) - 48))
  end.

(** The number of capturing groups of a pattern. *)
Fixpoint num_groups (r : regexp.Regexp) : nat :=
  match r with
  | [] => 0
  | regexp.Digits :: r' => S (num_groups r')
  | regexp.Lit _ :: r' => num_groups r'
  end.

(** The text that [parentRe] matches, with the three groups as given,
    followed by any text. *)
Definition parent_line (pid tid ppid rest : string) : string :=
  "parent:" +:+ tab +:+ tab +:+ "(pid:" +:+ pid +:+ ", tid:" +:+ tid +:+ ", ppid:"
  +:+ ppid +:+ ")" +:+ tab +:+ "starts" +:+ rest.

(** The text that [cloneChild1Re] matches, followed by any text. *)
Definition child1_line (pid tid ppid rest : string) : string :=
  "Child 1:" +:+ tab +:+ "(pid:" +:+ pid +:+ ", tid:" +:+ tid +:+ ", ppid:"
  +:+ ppid +:+ ")" +:+ tab +:+ "open" +:+ rest.

(** The text that [cloneThread1Re] matches, followed by any text. *)
Definition thread1_line (pid tid ppid rest : string) : string :=
  "Thread 1:" +:+ tab +:+ "(pid:" +:+ pid +:+ ", tid:" +:+ tid +:+ ", ppid:"
  +:+ ppid +:+ ")" +:+ tab +:+ "open" +:+ rest.

(** What one [v, err = strconv.ParseUint(d, 10, 32)] with its guarded
    assignment does to a field when [d] is a run of digits: the value when
    it fits 32 bits, the old value otherwise. *)
Definition stored (d : string) (old : Z) : Z :=
  if decide (digits_value d 0 < 2 ^ 32) then digits_value d 0 else old.

(** The error of one [strconv.ParseUint(d, 10, 32)] on a run of digits. *)
Definition range_err (d : string) : option error :=
  if decide (digits_value d 0 < 2 ^ 32) then None
  else Some (NumErr (strconv.rangeError "ParseUint" d)).

(** ** selectors_test.go: the callbacks of [runAndCheck] *)

(** The event of one [lseek] with the given whence value, as the tracepoint
    test receives it. *)
Definition lseekEvent (whence : Z) : Message :=
  MsgGenericTracepointUnix "syscalls" "sys_enter_lseek" [ArgUint64 whence].

(** An argument of a kprobe event: a [tracingapi.MsgGenericKprobeArgInt]
    with its [int32] value, or an argument of another type. *)
Inductive KprobeArg := MsgGenericKprobeArgInt (Value : Z) | KprobeArgOther.

(** The [notify.Message] values that the callback of [TestKprobeSelectors]
    tells apart: a [*tracing.MsgGenericKprobeUnix], or another message. *)
Inductive KprobeMessage :=
| MsgGenericKprobeUnix (FuncName : string) (Args : list KprobeArg)
| KprobeMsgOther.

Section RunAndCheckKprobe.

(** [testsensor.BogusWhenceVal], declared in [pkg/sensors/test]. *)
Variable BogusWhenceVal : Z.

(** The callback that [runAndCheck] of [TestKprobeSelectors] hands to
    [perfring.RunSubTest]: the counter afterwards, or the error returned.
    [uint64(whenceArg.Value)] converts an [int32]. *)
Definition checkKprobeEvent (ret : gmap Z Z) (ev : KprobeMessage) : gmap Z Z + string :=
  match ev with
  | MsgGenericKprobeUnix funcName args =>
      if decide (funcName <> "__x64_sys_lseek") then inr "unexpected kprobe event"
      else if decide (length args <> 2%nat) then inr "unexpected kprobe arguments"
      else
        match args !! 0%nat with
        | Some (MsgGenericKprobeArgInt whenceArg) =>
            match args !! 1%nat with
            | Some (MsgGenericKprobeArgInt retArg) =>
                if decide (retArg <> -9) then inr "unexpected return value"
                else
                  let whence := whenceArg `mod` 2 ^ 64 in
                  if decide (whence = BogusWhenceVal `mod` 2 ^ 64) then inl ret
                  else inl (count_whence ret whence)
            | _ => inr "unexpected kprobe arguments"
            end
        | _ => inr "unexpected kprobe arguments"
        end
  | KprobeMsgOther => inl ret
  end.

(** The counter [ret] after the tracepoint callback has seen the events one
    after the other, when none of its invocations returned an error. *)
Definition feed (ret : gmap Z Z) (evs : list Message) : option (gmap Z Z) :=
  foldl (fun acc ev =>
           match acc with
           | Some r => match checkEvent BogusWhenceVal r ev with
                       | inl r' => Some r'
                       | inr _ => None
                       end
           | None => None
           end) (Some ret) evs.

End RunAndCheckKprobe.

(** The event of one [lseek] that returned [-EBADF], as the kprobe test
    receives it: the whence argument and the return value. *)
Definition lseekKprobeEvent (whence : Z) : KprobeMessage :=
  MsgGenericKprobeUnix "__x64_sys_lseek"
    [MsgGenericKprobeArgInt whence; MsgGenericKprobeArgInt (-9)].

(* ================================================================== *)
(** * The selector core

    The selector compiler, the reload coordinator and the matcher's
    evaluation contract are not among the sources: only their tests are.
    This part models them from the specification. *)

Module core.

(** Modelled from the spec: the error taxonomy of section 7; the compiler,
    the loader boundary and the coordinator that raise these are missing. *)
Inductive ErrorKind :=
| EncodingError (literal : string)
| UnknownOperatorError (name : string)
| TypeMismatchError (operator : string)
| TableAllocationError
| PublishError
| ConcurrentReloadError.

(** Modelled from the spec: errors reach the caller with the attachment
    identity and the index of the failing SelectorSpec (section 7); the
    coordinator that builds them is missing. *)
Record Error := mkError {
  errAttachment : Z;
  errSelector : option nat;
  errKind : ErrorKind
}.

(** An error monad for the compiler: [inr] carries the error. *)
Definition bindR {A B E : Type} (m : A + E) (f : A -> B + E) : B + E :=
  match m with inl a => f a | inr e => inr e end.

Notation "x <-? m ;; k" := (bindR m (fun x => k))
  (at level 60, m at next level, right associativity).

(** The first error of a list of fallible steps, or all their results. *)
Fixpoint mapR {A B E : Type} (f : A -> B + E) (l : list A) : list B + E :=
  match l with
  | [] => inl []
  | a :: l' => b <-? f a ;; bs <-? mapR f l' ;; inl (b :: bs)
  end.

(** Modelled from the spec: the decoded type of an argument (section 3,
    ArgumentSpec), an integer of known signedness and width or a string;
    the type declarations of the compiler are missing. *)
Inductive ArgType := TyInt (signed : bool) (bits : Z) | TyString.

(** Modelled from the spec: an ArgumentSpec is an index and a decoded type
    (section 3); the attachment types of the compiler are missing. *)
Record ArgumentSpec := mkArgumentSpec { argSpecIndex : Z; argSpecType : ArgType }.

(** Modelled from the spec: the fixed-width binary form of a literal
    (section 4.1): an integer as its [bits]-wide two's complement value. *)
Inductive EncodedValue := EncInt (bits : Z) (v : Z) | EncStr (s : string).

#[global] Instance EncodedValue_eq_dec : EqDecision EncodedValue.
Proof. solve_decision. Defined.

(** Modelled from the spec: the integer literal of a policy value (section
    4.1), written in decimal as the tests write it; the value parser of the
    compiler is missing. [parse_digits] reads one or more digits. *)
Fixpoint parse_digits (s : string) (acc : Z) : option Z :=
  match s with
  | EmptyString => Some acc
  | String c s' =>
      if regexp.is_digit c
      then parse_digits s' (acc * 10 + (Z.of_nat (nat_of_ascii c) - 48))
      else None
  end.

(** Modelled from the spec: a decimal literal, an optional minus sign and
    one or more digits (section 4.1); the value parser is missing. *)
Definition parse_decimal (s : string) : option Z :=
  match s with
  | EmptyString => None
  | String "-"%char EmptyString => None
  | String "-"%char s' => Z.opp <$> parse_digits s' 0
  | _ => parse_digits s 0
  end.

(** Modelled from the spec: the operator table (section 4.2): a name
    resolves to an operator code and its evaluation contract; the table
    itself is missing, and only the names the tests use are entered. *)
Inductive OpCode := OpEqual | OpInMap | OpIn.

(** Modelled from the spec: the evaluation contract of an operator
    (section 4.2): its code, whether several values are OR-ed, whether it
    requires an auxiliary table; the operator table is missing. *)
Record OperatorEntry := mkOperatorEntry {
  opCode : OpCode;
  opMultiValue : bool;
  opNeedsTable : bool
}.

(** Modelled from the spec: resolving the operator name of an argument
    filter (section 4.2), with UnknownOperatorError for a name that is not
    in the table; the operator table is missing. *)
Definition resolveArgOperator (name : string) : OperatorEntry + ErrorKind :=
  if decide (name = "Equal") then inl (mkOperatorEntry OpEqual true false)
  else if decide (name = "InMap") then inl (mkOperatorEntry OpInMap true true)
  else inr (UnknownOperatorError name).

(** Modelled from the spec: resolving the operator name of a PID selector,
    which is a membership operator (sections 3 and 4.2); the operator table
    is missing. *)
Definition resolvePIDOperator (name : string) : OperatorEntry + ErrorKind :=
  if decide (name = "In") then inl (mkOperatorEntry OpIn true false)
  else inr (UnknownOperatorError name).

(** Modelled from the spec: the values of a descriptor are inline or a
    reference to an auxiliary table by its stable identifier (sections 4.3
    and 4.4). *)
Inductive ValueSet := Inline (vals : list EncodedValue) | InTable (id : Z).

(** Modelled from the spec: the PID-match descriptor (section 4.3): the
    operator, the namespace flag, the follow-forks flag and the values; the
    blob layout of the compiler is missing. *)
Record PIDDescriptor := mkPIDDescriptor {
  pdOp : OpCode;
  pdNamespace : bool;
  pdFollowForks : bool;
  pdValues : ValueSet
}.

(** Modelled from the spec: the argument-match descriptor (section 4.4):
    the index, the operator code and the values; the blob layout of the
    compiler is missing. *)
Record ArgDescriptor := mkArgDescriptor {
  adIndex : Z;
  adOp : OpCode;
  adValues : ValueSet
}.

(** Modelled from the spec: one record of the blob is (PID-descriptor,
    count, argument-descriptors...) (section 4.5); the end of the list is
    the sentinel. *)
Record SelectorRecord := mkSelectorRecord {
  srPID : option PIDDescriptor;
  srCount : nat;
  srArgs : list ArgDescriptor
}.

(** Modelled from the spec: the CompiledSelectorBlob is the sequence of
    these records (sections 3 and 4.5); the blob layout is missing. *)
Definition CompiledSelectorBlob := list SelectorRecord.

(** Modelled from the spec: an auxiliary table that a blob needs, its
    stable identifier and its entries (section 3, AuxiliaryTable); the
    table manager is missing. *)
Definition TableInit : Type := Z * list EncodedValue.

(** Modelled from the spec: a SelectorSpec has zero or one PIDSelector and
    zero or more ArgumentSelectors (section 3). *)
Record SelectorSpec := mkSelectorSpec {
  selPID : option v1alpha1.PIDSelector;
  selArgs : list v1alpha1.ArgSelector
}.

(** Modelled from the spec: the SelectorSpec of a policy selector, with the
    zero or one PIDSelector of section 3; the tests build every selector
    with exactly one [MatchPIDs] entry. The policy loader is missing. *)
Definition toSelectorSpec (s : v1alpha1.KProbeSelector) : SelectorSpec :=
  mkSelectorSpec (head (v1alpha1.MatchPIDs s)) (v1alpha1.MatchArgs s).

(** Modelled from the spec: the caller's process identity (section 4.3). *)
Record IdentityContext := mkIdentityContext { selfPID : Z }.

Section Compiler.

(** What the spec leaves open: the inline threshold (4.2), the maximum
    string length (4.1) and the hash that keys a table by its literal set
    and argument index (4.4); a PID set has no argument index. *)
Variable inlineThreshold : nat.
Variable maxStringLen : nat.
Variable tableKey : option Z -> list EncodedValue -> Z.

(** Modelled from the spec: the match-value encoder (section 4.1). It fails
    with EncodingError when the literal does not fit the declared type or a
    string exceeds the maximum length; nothing is truncated. *)
Definition encodeValue (ty : ArgType) (literal : string) : EncodedValue + ErrorKind :=
  match ty with
  | TyInt signed bits =>
      match parse_decimal literal with
      | None => inr (EncodingError literal)
      | Some z =>
          let lo := if signed then - 2 ^ (bits - 1) else 0 in
          let hi := if signed then 2 ^ (bits - 1) else 2 ^ bits in
          if decide (lo <= z < hi) then inl (EncInt bits (z `mod` 2 ^ bits))
          else inr (EncodingError literal)
      end
  | TyString =>
      if decide (String.length literal <= maxStringLen)%nat then inl (EncStr literal)
      else inr (EncodingError literal)
  end.

(** Modelled from the spec: the PID filter compiler (section 4.3): the
    operator, the namespace flag, the follow-forks flag, and the PID values
    inline for a small set or in an auxiliary table for a large one. An
    empty PIDSelector compiles to no process-identity constraint. *)
Definition compilePID (ctx : IdentityContext) (p : v1alpha1.PIDSelector)
  : (option PIDDescriptor * list TableInit) + ErrorKind :=
  op <-? resolvePIDOperator (v1alpha1.Operator p) ;;
  let vals := EncInt 32 <$> v1alpha1.Values p in
  if decide (vals = []) then inl (None, [])
  else if decide (length vals <= inlineThreshold)%nat then
    inl (Some (mkPIDDescriptor (opCode op) (v1alpha1.IsNamespacePID p)
                 (v1alpha1.FollowForks p) (Inline vals)), [])
  else
    let id := tableKey None vals in
    inl (Some (mkPIDDescriptor (opCode op) (v1alpha1.IsNamespacePID p)
                 (v1alpha1.FollowForks p) (InTable id)), [(id, vals)]).

(** Modelled from the spec: the declared type of the argument with the
    given index in the attachment's ArgumentSpec list (section 4.4); the
    argument filter compiler is missing. *)
Definition declaredType (args : list ArgumentSpec) (index : Z) : option ArgType :=
  argSpecType <$> head (filter (fun a => argSpecIndex a = index) args).

(** Modelled from the spec: whether the operator supports the declared
    type (section 4.4, TypeMismatchError); the table of pairs is missing,
    and set membership through a table is taken to be over integers. *)
Definition supports (op : OperatorEntry) (ty : ArgType) : bool :=
  match opCode op, ty with
  | OpInMap, TyString => false
  | _, _ => true
  end.

(** Modelled from the spec: the argument filter compiler (section 4.4): the
    index, the operator code and the encoded values, or the reference to
    the table keyed by the literal set and the index. An index that the
    attachment does not declare has no type to encode a literal for. *)
Definition compileArg (args : list ArgumentSpec) (a : v1alpha1.ArgSelector)
  : (ArgDescriptor * list TableInit) + ErrorKind :=
  op <-? resolveArgOperator (v1alpha1.ArgOperator a) ;;
  match declaredType args (v1alpha1.Index a) with
  | None => inr (EncodingError (default EmptyString (head (v1alpha1.ArgValues a))))
  | Some ty =>
      if negb (supports op ty) then inr (TypeMismatchError (v1alpha1.ArgOperator a))
      else
        vals <-? mapR (encodeValue ty) (v1alpha1.ArgValues a) ;;
        if opNeedsTable op then
          let id := tableKey (Some (v1alpha1.Index a)) vals in
          inl (mkArgDescriptor (v1alpha1.Index a) (opCode op) (InTable id), [(id, vals)])
        else
          inl (mkArgDescriptor (v1alpha1.Index a) (opCode op) (Inline vals), [])
  end.

(** Modelled from the spec: one SelectorSpec compiles to its PID descriptor,
    the count and the argument descriptors, with the tables they need
    (section 4.5); the selector set compiler is missing. *)
Definition compileSelector (args : list ArgumentSpec) (ctx : IdentityContext)
    (s : SelectorSpec) : (SelectorRecord * list TableInit) + ErrorKind :=
  pid <-? match selPID s with
          | None => inl (None, [])
          | Some p => compilePID ctx p
          end ;;
  ds <-? mapR (compileArg args) (selArgs s) ;;
  inl (mkSelectorRecord (fst pid) (length ds) (fst <$> ds),
       (snd pid ++ concat (snd <$> ds))%list).

(** Modelled from the spec: the selector set compiler (section 4.5): the
    records of the SelectorSpecs in order; an error names the index of the
    SelectorSpec that failed. [i] is the index of the head of [specs]. *)
Fixpoint compileFrom (i : nat) (specs : list SelectorSpec) (args : list ArgumentSpec)
    (ctx : IdentityContext) : (CompiledSelectorBlob * list TableInit) + nat * ErrorKind :=
  match specs with
  | [] => inl ([], [])
  | s :: specs' =>
      match compileSelector args ctx s with
      | inr e => inr (i, e)
      | inl (rec, ts) =>
          rest <-? compileFrom (S i) specs' args ctx ;;
          inl (rec :: fst rest, (ts ++ snd rest)%list)
      end
  end.

(** Modelled from the spec: [compileSelectors] of section 6, the exposed
    entry of the selector set compiler, which is missing. *)
Definition compileSelectors (specs : list SelectorSpec) (args : list ArgumentSpec)
    (ctx : IdentityContext) : (CompiledSelectorBlob * list TableInit) + nat * ErrorKind :=
  compileFrom 0 specs args ctx.

End Compiler.

(** ** The matcher's evaluation contract *)

(** Modelled from the spec: an intercepted call as the matcher sees it: the
    host PID and the namespace PID of the caller and the encoded argument
    values by index; the event format is outside the core. *)
Record Event := mkEvent {
  evPID : Z;
  evNsPID : Z;
  evArgs : gmap Z EncodedValue
}.

(** Modelled from the spec: the live configuration of one attachment
    (sections 3 and 4.6): the active blob, the auxiliary tables, the tables
    marked as eligible for retirement, and the processes that follow-forks
    has pre-approved, by selector index and host PID. *)
Record Attachment := mkAttachment {
  activeBlob : CompiledSelectorBlob;
  tables : gmap Z (list EncodedValue);
  retirable : gset Z;
  approved : gset (nat * Z)
}.

(** Modelled from the spec: multiple values under one operator are OR-ed
    (section 3); a table is consulted by its identifier. *)
Definition inValueSet (tbls : gmap Z (list EncodedValue)) (vs : ValueSet)
    (v : EncodedValue) : bool :=
  match vs with
  | Inline vals => bool_decide (v ∈ vals)
  | InTable id => bool_decide (v ∈ default [] (tbls !! id))
  end.

(** Modelled from the spec: an argument descriptor holds when the argument
    at its index compares true with one of its values (sections 3 and 4.4);
    the kernel matcher is missing. *)
Definition evalArg (tbls : gmap Z (list EncodedValue)) (ev : Event) (d : ArgDescriptor)
  : bool :=
  match evArgs ev !! adIndex d with
  | Some v => inValueSet tbls (adValues d) v
  | None => false
  end.

(** Modelled from the spec: the PID that the descriptor looks up in its
    values is the one seen in the process's own PID namespace, or the host
    one, by the namespace flag (section 3); the kernel matcher is missing. *)
Definition pidListed (tbls : gmap Z (list EncodedValue)) (d : PIDDescriptor) (ev : Event)
  : bool :=
  inValueSet tbls (pdValues d)
    (EncInt 32 (if pdNamespace d then evNsPID ev else evPID ev)).

(** Modelled from the spec: the PID condition of selector [i] (sections 4.3
    and 4.5): true when there is no descriptor; a pre-approved process
    bypasses the evaluation of the PID list. *)
Definition evalPID (tbls : gmap Z (list EncodedValue)) (appr : gset (nat * Z)) (i : nat)
    (d : option PIDDescriptor) (ev : Event) : bool :=
  match d with
  | None => true
  | Some d => bool_decide ((i, evPID ev) ∈ appr) || pidListed tbls d ev
  end.

(** Modelled from the spec: upon a match of a selector whose PID descriptor
    follows forks, the matching process is marked as pre-approved (section
    4.3); the kernel matcher is missing. *)
Definition markMatch (appr : gset (nat * Z)) (i : nat) (d : option PIDDescriptor)
    (ev : Event) : gset (nat * Z) :=
  match d with
  | Some d => if pdFollowForks d then {[ (i, evPID ev) ]} ∪ appr else appr
  | None => appr
  end.

(** Modelled from the spec: the evaluation contract of section 4.5: iterate
    the SelectorSpecs in order; for each, the PID descriptor AND all the
    argument descriptors; stop and accept on the first that is true; reject
    when none is. The result is the index of the accepting selector. *)
Fixpoint evalFrom (i : nat) (tbls : gmap Z (list EncodedValue)) (appr : gset (nat * Z))
    (blob : CompiledSelectorBlob) (ev : Event) : option nat * gset (nat * Z) :=
  match blob with
  | [] => (None, appr)
  | r :: blob' =>
      if evalPID tbls appr i (srPID r) ev && forallb (evalArg tbls ev) (srArgs r)
      then (Some i, markMatch appr i (srPID r) ev)
      else evalFrom (S i) tbls appr blob' ev
  end.

(** Modelled from the spec: what the kernel side of one attachment goes
    through between two reloads: an intercepted call, or a fork reported by
    the process-tree collaborator (sections 4.3 and 5), which is missing. *)
Inductive KernelEvent :=
| Call (ev : Event)
| Fork (parent child : Z).

(** Modelled from the spec: the descendants of a pre-approved process are
    pre-approved (section 4.3): the child inherits the approvals of its
    parent when it is spawned. *)
Definition inherit (appr : gset (nat * Z)) (parent child : Z) : gset (nat * Z) :=
  appr ∪ set_map (fun x : nat * Z => (fst x, child))
           (filter (fun x : nat * Z => snd x = parent) appr).

(** Modelled from the spec: one step of the kernel side (section 5):
    whether a call is accepted, and by which selector, and the attachment
    afterwards; the kernel matcher is missing. *)
Definition kstep (att : Attachment) (e : KernelEvent) : option nat * Attachment :=
  match e with
  | Call ev =>
      let '(res, appr) := evalFrom 0 (tables att) (approved att) (activeBlob att) ev in
      (res, mkAttachment (activeBlob att) (tables att) (retirable att) appr)
  | Fork parent child =>
      (None, mkAttachment (activeBlob att) (tables att) (retirable att)
               (inherit (approved att) parent child))
  end.



(** ** The live reload coordinator *)

(** Modelled from the spec: the sensor and the kernel side: the programs of
    the sensor ([Progs], which the tests read), and the live configuration of
    every attached program by its handle (section 6); the sensor and loader
    types are missing. *)
Record World := mkWorld {
  Progs : list Z;
  attached : gmap Z Attachment
}.


(** Modelled from the spec: the identifiers of the auxiliary tables that a
    value set, a record and a blob reference (sections 3 and 4.6). *)
Definition valueSetRefs (vs : ValueSet) : gset Z :=
  match vs with Inline _ => ∅ | InTable id => {[ id ]} end.

(** Modelled from the spec: the tables referenced by one record. *)
Definition recordRefs (r : SelectorRecord) : gset Z :=
  from_option (fun d => valueSetRefs (pdValues d)) ∅ (srPID r)
  ∪ ⋃ (valueSetRefs ∘ adValues <$> srArgs r).

(** Modelled from the spec: the tables referenced by a blob. *)
Definition blobRefs (blob : CompiledSelectorBlob) : gset Z := ⋃ (recordRefs <$> blob).

Section Coordinator.

Variable inlineThreshold : nat.
Variable maxStringLen : nat.
Variable tableKey : option Z -> list EncodedValue -> Z.

(** The loader collaborator of section 6, which may refuse: [allocTable]
    with [writeTable] for a table of an attachment, and [updateConfig]. *)
Variable allocTable_ok : Z -> Z -> bool.
Variable updateConfig_ok : Z -> CompiledSelectorBlob -> bool.

(** Modelled from the spec: the reload protocol of section 4.6.
    1. Compile the candidate; a compilation error is returned before any
       kernel-visible state is touched.
    2. Allocate the tables the candidate needs and the attachment does not
       have yet; write the blob with one update.
    3. After the write, mark the tables that the previous blob referenced
       and the new one does not as eligible for retirement.
    A failure at the loader boundary leaves the prior configuration. The
    pre-approvals of follow-forks end when the policy is replaced. *)
Definition reload (p : Z) (specs : list SelectorSpec) (args : list ArgumentSpec)
    (ctx : IdentityContext) (w : World) : World * option Error :=
  match compileSelectors inlineThreshold maxStringLen tableKey specs args ctx with
  | inr (i, k) => (w, Some (mkError p (Some i) k))
  | inl (blob, inits) =>
      match attached w !! p with
      | None => (w, Some (mkError p None PublishError))
      | Some att =>
          let fresh := filter (fun t : TableInit => tables att !! fst t = None) inits in
          if negb (forallb (fun t : TableInit => allocTable_ok p (fst t)) fresh)
          then (w, Some (mkError p None TableAllocationError))
          else if negb (updateConfig_ok p blob)
          then (w, Some (mkError p None PublishError))
          else
            let att' :=
              mkAttachment blob
                (foldr (fun (t : TableInit) m => <[fst t := snd t]> m) (tables att) fresh)
                (blobRefs (activeBlob att) ∖ blobRefs blob)
                ∅ in
            (mkWorld (Progs w) (<[p := att']> (attached w)), None)
      end
  end.

(** The decoded type of a declared argument comes from the probe's format,
    which the policy-loading layer supplies. *)
Variable decodedType : v1alpha1.KProbeArg -> ArgType.
Variable ctx : IdentityContext.

(** Modelled from the spec: [ReloadGenericTracepointSelectors], called by
    the tests and missing from the sources, as the exposed
    [reload(AttachmentHandle, SelectorSpec[], ArgumentSpec[])] of section 6
    on the selectors and arguments of the tracepoint spec. *)
Definition ReloadGenericTracepointSelectors (tpProg : Z) (tpSpec : v1alpha1.TracepointSpec)
    (w : World) : World * option Error :=
  reload tpProg (toSelectorSpec <$> v1alpha1.Selectors tpSpec)
    ((fun a => mkArgumentSpec (v1alpha1.ArgIndex a) (decodedType a)) <$> v1alpha1.Args tpSpec)
    ctx w.

(** The outcome of a test helper: it returns, or it stops in [t.Fatalf]. *)
Inductive Outcome := Returns (w : World) | Fatalf (msg : string).

(** [tpSpecReload] of selectors_test.go, over the world it acts on. The
    index 0 is in range after the length check. *)
Definition tpSpecReload (w : World) (tpSpec : v1alpha1.TracepointSpec) : Outcome :=
  if decide (length (Progs w) <> 1%nat) then Fatalf "unexpected progs size"
  else
    match Progs w !! 0%nat with
    | None => Fatalf "index out of range"
    | Some tpProg =>
        match ReloadGenericTracepointSelectors tpProg tpSpec w with
        | (w', Some err) => Fatalf "failed to reload tracepoint prog"
        | (w', None) =>
            if decide (length (Progs w') <> 1%nat) then Fatalf "unexpected progs size"
            else Returns w'
        end
    end.

End Coordinator.

End core.

(** ** A concrete setting: the tracepoint test on [sys_enter_lseek] *)

Module fixture.
Import core.

(** A key for auxiliary tables that tells apart the literal sets used here:
    the argument index followed by the values, read as digits in base
    2^16 + 1. *)
Definition key (index : option Z) (vals : list EncodedValue) : Z :=
  foldl (fun acc v => acc * 65537 + match v with EncInt _ z => z | EncStr _ => 0 end)
    (default (-1) index) vals.

Definition inlineThreshold : nat := 4.
Definition maxStringLen : nat := 256.
Definition loader_ok (_ : Z) {A : Type} (_ : A) : bool := true.

(** The whence field of [sys_enter_lseek] is an unsigned 8-byte field. *)
Definition decodedType (_ : v1alpha1.KProbeArg) : ArgType := TyInt false 64.

Definition mypid : Z := 143563.
Definition ctx : IdentityContext := mkIdentityContext mypid.

Definition args : list ArgumentSpec := [ mkArgumentSpec (whenceIdx) (TyInt false 64) ].


Definition Reload (tpProg : Z) (tpSpec : v1alpha1.TracepointSpec) (w : World)
  : World * option Error :=
  ReloadGenericTracepointSelectors inlineThreshold maxStringLen key
    (fun p => loader_ok p) (fun p => loader_ok p) decodedType ctx tpProg tpSpec w.

(** The sensor with its one program attached and no selector yet. *)
Definition attachedWorld : World :=
  mkWorld [1] {[ 1 := mkAttachment [] ∅ ∅ ∅ ]}.

(** The world after the sensor is loaded with the first entry of the table. *)
Definition loadedWorld : World :=
  fst (Reload 1 (makeSpec mypid [[4443]; [9999]] "Equal") attachedWorld).

(** [unix.Seek(-1, 0, whence)] by process [pid], as the tracepoint sees it. *)
Definition lseek (pid : Z) (whence : Z) : Event :=
  mkEvent pid pid {[ whenceIdx := EncInt 64 whence ]}.

(** The whence value of the test sensor's own lseek calls, which the
    callback ignores. *)
Definition BogusWhenceVal : Z := 4729.

(** The message that reaches user space for an accepted call. *)
Definition message (whence : Z) : Message :=
  MsgGenericTracepointUnix "syscalls" "sys_enter_lseek" [ArgUint64 whence].

(** The calls of [lseekTestOps] by the test process, run against the
    attachment of program 1; the accepted ones reach the callback of
    [runAndCheck]. The result is the counter, or the callback's error. *)
Definition runOps (w : World) (whences : list Z) : gmap Z Z + string :=
  match attached w !! 1 with
  | None => inl ∅
  | Some att =>
      snd (foldl (fun (st : Attachment * (gmap Z Z + string)) whence =>
                    let '(res, att') := kstep (fst st) (Call (lseek mypid whence)) in
                    (att', match res, snd st with
                           | Some _, inl ret => checkEvent BogusWhenceVal ret (message whence)
                           | _, r => r
                           end))
             (att, inl ∅) whences)
  end.

(** The loop of [TestTracepointSelectors] over the table: entry 0 runs on
    the loaded sensor, every later entry after [tpSpecReload]; the result
    tells whether every [cmp.Diff] of every entry was empty. *)
Fixpoint runTable (first : bool) (w : World) (table : list testSpec) : bool :=
  match table with
  | [] => true
  | tcs :: rest =>
      let spec := makeSpec mypid (specFilterVals tcs) (specOperator tcs) in
      match (if first then Returns w
             else tpSpecReload inlineThreshold maxStringLen key
                    (fun p => loader_ok p) (fun p => loader_ok p) decodedType ctx w spec) with
      | Fatalf _ => false
      | Returns w' =>
          forallb (fun tc => bool_decide (runOps w' (lseekOpsVals tc) = inl (expectedArgs tc)))
            (tests tcs)
          && runTable false w' rest
      end
  end.

End fixture.

(* ================================================================== *)
(** * Properties *)

Example TestCloneTesterParser :
  fst (foldl (fun st l => ParseLine (fst st) l)
         (mkCloneTesterInfo 0 0 0 0 0 0 0 0, None)
         [EmptyString; sample_parent; sample_thread1; sample_child1; sample_exit; EmptyString])
  = mkCloneTesterInfo 143563 143563 143564 143564 143563 143564 143565 143563.
Proof. vm_compute. reflexivity. Qed.

(** ** getKprobeOptions *)

Section OptionsProps.
Import v1alpha1.

Variable K : string.

Lemma range_opts_named spec st :
  Name spec = K ->
  range_opts (opts K) spec st =
    match snd (strconv.ParseBool (Value spec)) with
    | None => inl (mkKprobeOptions (parsed spec), snd st ++ [logged spec])%list
    | Some ne => inr (FailedToSetOption K (NumErr ne), snd st)
    end.
Proof.
  intros HK. unfold parsed, logged. cbn.
  destruct (decide (K = Name spec)) as [_|Hne]; [|congruence].
  destruct (strconv.ParseBool (Value spec)) as [b [ne|]]; reflexivity.
Qed.

Lemma range_opts_other spec st :
  Name spec <> K -> range_opts (opts K) spec st = inl st.
Proof.
  intros HK. cbn. destruct (decide (K = Name spec)); congruence.
Qed.

Lemma range_specs_app l1 l2 st :
  range_specs K (l1 ++ l2) st =
    match range_specs K l1 st with
    | inl st' => range_specs K l2 st'
    | inr e => inr e
    end.
Proof.
  revert st. induction l1 as [|s l1 IH]; intros st; [reflexivity|].
  cbn [app range_specs].
  destruct (range_opts (opts K) s st); [apply IH | reflexivity].
Qed.

(** The loop over a list all of whose named specs parse. *)
Lemma range_specs_accepted specs o log :
  (forall s, s ∈ specs -> Name s = K -> accepted s) ->
  let named := filter (fun s => Name s = K) specs in
  range_specs K specs (o, log) =
    inl (mkKprobeOptions (default (DisableKprobeMulti o) (parsed <$> last named)),
         log ++ (logged <$> named))%list.
Proof.
  revert o log. induction specs as [|s specs IH]; intros o log Hok; cbn zeta.
  - cbn. rewrite app_nil_r. destruct o; reflexivity.
  - cbn [range_specs]. rewrite filter_cons.
    destruct (decide (Name s = K)) as [HK|HK].
    + rewrite range_opts_named by done.
      rewrite (Hok s) by (done || apply list_elem_of_here).
      cbn [snd]. rewrite IH by (intros; apply Hok; [by apply list_elem_of_further|done]).
      cbn [DisableKprobeMulti]. f_equal. f_equal.
      * f_equal. rewrite last_cons.
        destruct (last (filter (fun s0 => Name s0 = K) specs)); reflexivity.
      * rewrite fmap_cons, <- app_assoc. reflexivity.
    + rewrite range_opts_other by done.
      apply IH. intros; apply Hok; [by apply list_elem_of_further|done].
Qed.

(** Either every named spec parses, or the list splits at the first one
    that does not. *)
Lemma first_rejected (specs : list OptionSpec) :
  (forall s, s ∈ specs -> Name s = K -> accepted s) \/
  exists pre s post ne,
    specs = (pre ++ s :: post)%list /\ Name s = K /\
    snd (strconv.ParseBool (Value s)) = Some ne /\
    forall s', s' ∈ pre -> Name s' = K -> accepted s'.
Proof.
  induction specs as [|s specs IH].
  - left. intros s Hs. by apply elem_of_nil in Hs.
  - destruct (decide (Name s = K)) as [HK|HK].
    + destruct (snd (strconv.ParseBool (Value s))) as [ne|] eqn:Hp.
      * right. exists [], s, specs, ne. repeat split; try done.
        intros s' Hs'. by apply elem_of_nil in Hs'.
      * destruct IH as [IH|(pre & s1 & post & ne & -> & ? & ? & Hpre)].
        -- left. intros s' [->|Hs']%elem_of_cons ?; [done|by apply IH].
        -- right. exists (s :: pre), s1, post, ne. repeat split; try done.
           intros s' [->|Hs']%elem_of_cons ?; [done|by apply Hpre].
    + destruct IH as [IH|(pre & s1 & post & ne & -> & ? & ? & Hpre)].
      * left. intros s' [->|Hs']%elem_of_cons ?; [done|by apply IH].
      * right. exists (s :: pre), s1, post, ne. repeat split; try done.
        intros s' [->|Hs']%elem_of_cons ?; [done|by apply Hpre].
Qed.

Lemma getKprobeOptions_log_accepted specs :
  (forall s, s ∈ specs -> Name s = K -> accepted s) ->
  let named := filter (fun s => Name s = K) specs in
  getKprobeOptions_log K specs =
    (Some (mkKprobeOptions (default false (parsed <$> last named))), None,
     logged <$> named).
Proof.
  intros Hok named. unfold getKprobeOptions_log.
  rewrite range_specs_accepted by done. reflexivity.
Qed.

Lemma getKprobeOptions_log_rejected pre s post ne :
  Name s = K ->
  snd (strconv.ParseBool (Value s)) = Some ne ->
  (forall s', s' ∈ pre -> Name s' = K -> accepted s') ->
  getKprobeOptions_log K (pre ++ s :: post) =
    (None, Some (FailedToSetOption K (NumErr ne)),
     logged <$> filter (fun s => Name s = K) pre).
Proof.
  intros HK Hne Hpre. unfold getKprobeOptions_log.
  rewrite range_specs_app, range_specs_accepted by done.
  cbn [range_specs]. rewrite range_opts_named by done. rewrite Hne. reflexivity.
Qed.

End OptionsProps.

(** C8: [getKprobeOptions] returns an error, and nil options, iff some spec
    named by the key has a value that [ParseBool] rejects; the error is the
    one of the first such spec in list order. Otherwise it returns options
    whose [DisableKprobeMulti] is the parsed value of the last spec with that
    name, false when there is none. Specs with another name change neither
    the result nor the log. *)
Theorem getKprobeOptions_first_error_last_value
    (K : string) (specs : list v1alpha1.OptionSpec) :
  let named := filter (fun s => v1alpha1.Name s = K) specs in
  ((exists e, getKprobeOptions K specs = (None, Some e)) <->
   (exists s, s ∈ specs /\ v1alpha1.Name s = K /\ ~ accepted s))
  /\ (forall e, snd (getKprobeOptions K specs) = Some e ->
      exists pre s post ne,
        specs = (pre ++ s :: post)%list /\ v1alpha1.Name s = K /\
        snd (strconv.ParseBool (v1alpha1.Value s)) = Some ne /\
        (forall s', s' ∈ pre -> v1alpha1.Name s' = K -> accepted s') /\
        e = FailedToSetOption K (NumErr ne) /\
        getKprobeOptions K specs = (None, Some e))
  /\ ((forall s, s ∈ specs -> v1alpha1.Name s = K -> accepted s) ->
      getKprobeOptions K specs =
        (Some (mkKprobeOptions (default false (parsed <$> last named))), None))
  /\ getKprobeOptions_log K specs = getKprobeOptions_log K named.
Proof.
  intros named. unfold getKprobeOptions.
  destruct (first_rejected K specs) as [Hok|(pre & s & post & ne & Hs & HK & Hne & Hpre)].
  - pose proof (getKprobeOptions_log_accepted K specs Hok) as Hrun. cbn zeta in Hrun.
    fold named in Hrun. rewrite Hrun. cbn [fst snd].
    repeat split.
    + intros [e He]. discriminate.
    + intros (s & Hs & HK & Hrej). destruct Hrej. by apply Hok.
    + intros e He. discriminate.
    + assert (Hnamed : forall s, s ∈ named -> v1alpha1.Name s = K -> accepted s).
      { intros s [_ Hs]%list_elem_of_filter ?. by apply Hok. }
      rewrite (getKprobeOptions_log_accepted K named Hnamed). cbn zeta.
      unfold named. rewrite list_filter_filter_l by done.
      reflexivity.
  - subst specs.
    rewrite (getKprobeOptions_log_rejected K pre s post ne HK Hne Hpre). cbn [fst snd].
    repeat split.
    + intros _. exists s. split; [|split; [done|]].
      * apply elem_of_app. right. apply list_elem_of_here.
      * unfold accepted. rewrite Hne. discriminate.
    + intros _. eexists. reflexivity.
    + intros e [= <-]. exists pre, s, post, ne. repeat split; done.
    + intros Hok. exfalso.
      assert (accepted s) as Hacc.
      { apply Hok; [|done]. apply elem_of_app. right. apply list_elem_of_here. }
      unfold accepted in Hacc. congruence.
    + unfold named. rewrite filter_app, filter_cons.
      destruct (decide (v1alpha1.Name s = K)) as [_|?]; [|done].
      rewrite (getKprobeOptions_log_rejected K _ s _ ne HK Hne).
      * rewrite list_filter_filter_l by done.
        reflexivity.
      * intros s' [_ Hs']%list_elem_of_filter ?. by apply Hpre.
Qed.

Example getKprobeOptions_last_wins :
  getKprobeOptions "disable-kprobe-multi"
    [ v1alpha1.mkOptionSpec "disable-kprobe-multi" "1";
      v1alpha1.mkOptionSpec "other" "maybe";
      v1alpha1.mkOptionSpec "disable-kprobe-multi" "F" ]
  = (Some (mkKprobeOptions false), None).
Proof. vm_compute. reflexivity. Qed.

Example getKprobeOptions_first_bad :
  getKprobeOptions "disable-kprobe-multi"
    [ v1alpha1.mkOptionSpec "disable-kprobe-multi" "1";
      v1alpha1.mkOptionSpec "disable-kprobe-multi" "yes";
      v1alpha1.mkOptionSpec "disable-kprobe-multi" "no" ]
  = (None, Some (FailedToSetOption "disable-kprobe-multi"
                   (NumErr (strconv.syntaxError "ParseBool" "yes")))).
Proof. vm_compute. reflexivity. Qed.

(** ** selectorsFromWhenceVals *)

Section SelectorsProps.

Variable mypid : Z.

Lemma fill_whences_fmap (whenceVals : list Z) (n i : nat) :
  (i + n)%nat = length whenceVals ->
  fill_whences whenceVals i n
    ((Sprintf_d <$> take i whenceVals) ++ replicate n EmptyString)%list
  = Sprintf_d <$> whenceVals.
Proof.
  revert i. induction n as [|n IH]; intros i Hlen.
  - cbn. rewrite app_nil_r, take_ge by lia. reflexivity.
  - cbn [fill_whences].
    destruct (lookup_lt_is_Some_2 whenceVals i) as [x Hx]; [lia|].
    rewrite <- (IH (S i)) by lia. f_equal.
    rewrite insert_app_r_alt by (rewrite length_fmap, length_take; lia).
    rewrite length_fmap, length_take, Nat.min_l by lia.
    rewrite Nat.sub_diag, Hx. cbn [replicate default].
    rewrite (take_S_r _ _ x) by done.
    rewrite fmap_app, <- app_assoc. reflexivity.
Qed.

Lemma make_whences_fmap (whenceVals : list Z) :
  make_whences whenceVals = Sprintf_d <$> whenceVals.
Proof.
  unfold make_whences.
  apply (fill_whences_fmap whenceVals (length whenceVals) 0). lia.
Qed.

Lemma range_filterWhenceVals_fmap fw whenceIdx filterOperator sels :
  range_filterWhenceVals mypid fw whenceIdx filterOperator sels
  = (sels ++ (selector_of mypid whenceIdx filterOperator <$> fw))%list.
Proof.
  revert sels. induction fw as [|vals fw IH]; intros sels; cbn [range_filterWhenceVals].
  - rewrite app_nil_r. reflexivity.
  - rewrite IH, make_whences_fmap, <- app_assoc. reflexivity.
Qed.

Lemma selectorsFromWhenceVals_eq fw whenceIdx filterOperator :
  selectorsFromWhenceVals mypid fw whenceIdx filterOperator =
    match fw with
    | [] => [ v1alpha1.mkKProbeSelector (myPidMatchPIDs mypid) [] ]
    | _ => selector_of mypid whenceIdx filterOperator <$> fw
    end.
Proof.
  unfold selectorsFromWhenceVals. rewrite range_filterWhenceVals_fmap.
  destruct fw; reflexivity.
Qed.

End SelectorsProps.

(** C10: for a non-empty [filterWhenceVals], [selectorsFromWhenceVals] returns
    one selector per inner value list, in order, each with the caller-PID
    [MatchPIDs] entry (operator In, host namespace, follow-forks true) and
    one [MatchArgs] entry with the given index and operator whose values are
    the decimal strings of the inner list in order; for an empty
    [filterWhenceVals] it returns one selector with only the PID match. *)
Theorem selectorsFromWhenceVals_shape
    (mypid : Z) (filterWhenceVals : list (list Z)) (whenceIdx : Z) (filterOperator : string) :
  let sels := selectorsFromWhenceVals mypid filterWhenceVals whenceIdx filterOperator in
  let pidsel := v1alpha1.mkPIDSelector "In" [uint32 mypid] false true in
  (filterWhenceVals <> [] ->
     length sels = length filterWhenceVals /\
     forall (i : nat) (whenceVals : list Z),
       filterWhenceVals !! i = Some whenceVals ->
       sels !! i =
         Some (v1alpha1.mkKProbeSelector [pidsel]
                 [ v1alpha1.mkArgSelector whenceIdx filterOperator
                     (Sprintf_d <$> whenceVals) ]))
  /\ (filterWhenceVals = [] -> sels = [ v1alpha1.mkKProbeSelector [pidsel] [] ]).
Proof.
  intros sels pidsel. unfold sels. rewrite selectorsFromWhenceVals_eq. split.
  - intros Hne. destruct filterWhenceVals as [|v fw]; [done|]. split.
    + by rewrite length_fmap.
    + intros i vals Hi. rewrite list_lookup_fmap, Hi. reflexivity.
  - intros ->. reflexivity.
Qed.

Example selectorsFromWhenceVals_two :
  selectorsFromWhenceVals 77 [[4443; -1]; [9999]] 7 "Equal" =
    [ v1alpha1.mkKProbeSelector [v1alpha1.mkPIDSelector "In" [77] false true]
        [v1alpha1.mkArgSelector 7 "Equal" ["4443"; "-1"]];
      v1alpha1.mkKProbeSelector [v1alpha1.mkPIDSelector "In" [77] false true]
        [v1alpha1.mkArgSelector 7 "Equal" ["9999"]] ].
Proof. vm_compute. reflexivity. Qed.

(** ** ParseLine *)

Lemma parse_field_err s old :
  snd (parse_field s old) = NumErr <$> snd (strconv_uint.ParseUint_10_32 s).
Proof.
  unfold parse_field. destruct (strconv_uint.ParseUint_10_32 s) as [v err]. reflexivity.
Qed.

(** C9: [ParseLine] returns the error of the last [ParseUint] of the branch
    whose pattern matched, and nothing of the earlier ones. On a parent line
    whose pid exceeds 32 bits and whose tid parses, it returns nil, leaves
    [parentPid] as it was and sets [parentTid]. A line that matches no
    pattern returns nil and changes no field. *)
Theorem ParseLine_returns_last_error_only :
  (forall cti l,
     let mp := regexp.FindStringSubmatch parentRe l in
     let mc := regexp.FindStringSubmatch cloneChild1Re l in
     let mt := regexp.FindStringSubmatch cloneThread1Re l in
     snd (ParseLine cti l) =
       if decide (0 < length mp)%nat
       then NumErr <$> snd (strconv_uint.ParseUint_10_32 (idx mp 2))
       else if decide (0 < length mc)%nat
       then NumErr <$> snd (strconv_uint.ParseUint_10_32 (idx mc 3))
       else if decide (0 < length mt)%nat
       then NumErr <$> snd (strconv_uint.ParseUint_10_32 (idx mt 3))
       else None)
  /\ (let m := regexp.FindStringSubmatch parentRe wide_pid_line in
      idx m 1 = "4294967296" /\ idx m 2 = "7" /\
      snd (strconv_uint.ParseUint_10_32 (idx m 1))
        = Some (strconv.rangeError "ParseUint" "4294967296") /\
      strconv_uint.ParseUint_10_32 (idx m 2) = (7, None) /\
      forall cti,
        snd (ParseLine cti wide_pid_line) = None /\
        parentPid (fst (ParseLine cti wide_pid_line)) = parentPid cti /\
        parentTid (fst (ParseLine cti wide_pid_line)) = 7)
  /\ (forall cti l,
        regexp.FindStringSubmatch parentRe l = [] ->
        regexp.FindStringSubmatch cloneChild1Re l = [] ->
        regexp.FindStringSubmatch cloneThread1Re l = [] ->
        ParseLine cti l = (cti, None)).
Proof.
  split; [|split].
  - intros cti l mp mc mt. unfold ParseLine. fold mp mc mt.
    destruct (decide (0 < length mp)%nat).
    { destruct (parse_field (idx mp 1) (parentPid cti)) as [pid e1].
      pose proof (parse_field_err (idx mp 2) (parentTid cti)) as H2.
      destruct (parse_field (idx mp 2) (parentTid cti)) as [tid e2]. exact H2. }
    destruct (decide (0 < length mc)%nat).
    { destruct (parse_field (idx mc 1) (child1Pid cti)) as [pid e1].
      destruct (parse_field (idx mc 2) (child1Tid cti)) as [tid e2].
      pose proof (parse_field_err (idx mc 3) (parentChild1Pid cti)) as H3.
      destruct (parse_field (idx mc 3) (parentChild1Pid cti)) as [ppid e3]. exact H3. }
    destruct (decide (0 < length mt)%nat).
    { destruct (parse_field (idx mt 1) (thread1Pid cti)) as [pid e1].
      destruct (parse_field (idx mt 2) (thread1Tid cti)) as [tid e2].
      pose proof (parse_field_err (idx mt 3) (parentThread1Pid cti)) as H3.
      destruct (parse_field (idx mt 3) (parentThread1Pid cti)) as [ppid e3]. exact H3. }
    reflexivity.
  - cbn zeta. repeat split; vm_compute; reflexivity.
  - intros cti l Hp Hc Ht. unfold ParseLine. rewrite Hp, Hc, Ht. reflexivity.
Qed.

Example ParseLine_child_partial :
  ParseLine (mkCloneTesterInfo 1 2 3 4 5 6 7 8)
    ("Child 1:" +:+ tab +:+ "(pid:99999999999, tid:12, ppid:13)" +:+ tab +:+ "open")
  = (mkCloneTesterInfo 1 2 3 12 13 6 7 8, None).
Proof. vm_compute. reflexivity. Qed.

Example ParseLine_last_error :
  ParseLine (mkCloneTesterInfo 1 2 3 4 5 6 7 8)
    ("Child 1:" +:+ tab +:+ "(pid:11, tid:12, ppid:99999999999)" +:+ tab +:+ "open")
  = (mkCloneTesterInfo 1 2 11 12 5 6 7 8,
     Some (NumErr (strconv.rangeError "ParseUint" "99999999999"))).
Proof. vm_compute. reflexivity. Qed.

(** ** The test table *)

Lemma filter_eq_absent (v : Z) (ops : list Z) :
  v ∉ ops -> filter (fun x => x = v) ops = [].
Proof.
  induction ops as [|x ops IH]; intros Hv; [reflexivity|].
  apply not_elem_of_cons in Hv as [Hne Hv].
  rewrite filter_cons, decide_False by congruence. by apply IH.
Qed.

Lemma foldl_count_whence_lookup (ops : list Z) (ret : gmap Z Z) (v : Z) :
  foldl count_whence ret ops !! v =
    if decide (v ∈ ops) then Some (default 0 (ret !! v) + calls_with v ops)
    else ret !! v.
Proof.
  revert ret. induction ops as [|x ops IH]; intros ret; cbn [foldl].
  - rewrite decide_False by (by intros ?%elem_of_nil). reflexivity.
  - rewrite IH. unfold calls_with, count_whence. rewrite filter_cons.
    destruct (decide (x = v)) as [->|Hx].
    + rewrite lookup_insert_eq. cbn [default length].
      rewrite (decide_True (P := v ∈ v :: ops)) by apply list_elem_of_here.
      destruct (decide (v ∈ ops)) as [Hin|Hin].
      * f_equal. unfold id. lia.
      * rewrite filter_eq_absent by done. cbn. f_equal.
    + rewrite lookup_insert_ne by done.
      destruct (decide (v ∈ ops)) as [Hin|Hin].
      * rewrite decide_True by (by apply list_elem_of_further). reflexivity.
      * rewrite decide_False; [reflexivity|].
        intros [->|?]%elem_of_cons; done.
Qed.

Lemma observed_lookup filterVals ops v :
  observed filterVals ops !! v =
    if decide (v ∈ ops /\ passes filterVals v) then Some (calls_with v ops) else None.
Proof.
  unfold observed. rewrite foldl_count_whence_lookup, lookup_empty. cbn [default].
  destruct (decide (v ∈ filter (passes filterVals) ops)) as [Hin|Hin].
  - apply list_elem_of_filter in Hin as Hin'. rewrite decide_True by tauto.
    f_equal. unfold calls_with. rewrite list_filter_filter.
    rewrite (list_filter_iff _ (fun x => x = v)); [lia|].
    intros x. split; [tauto|]. intros ->. tauto.
  - rewrite decide_False; [reflexivity|].
    intros [? ?]. apply Hin. by apply list_elem_of_filter.
Qed.

Lemma testCases_observed :
  Forall (fun e =>
    Forall (fun tc => expectedArgs tc = observed (specFilterVals e) (lseekOpsVals tc))
      (tests e)) testCases.
Proof. repeat constructor. Qed.

(** C1: in every entry of [testCases], the [expectedArgs] of every test case
    is the frequency map of the calls that pass the OR of the entry's value
    lists: a value is present iff some call uses it and it is a member of at
    least one list, and it is then counted once per call. *)
Theorem testCases_expectedArgs_or_of_alternatives (e : testSpec) (tc : testCase) :
  e ∈ testCases -> tc ∈ tests e ->
  expectedArgs tc = observed (specFilterVals e) (lseekOpsVals tc) /\
  forall v : Z,
    let counted :=
      v ∈ lseekOpsVals tc /\ exists vals, vals ∈ specFilterVals e /\ v ∈ vals in
    (counted -> expectedArgs tc !! v = Some (calls_with v (lseekOpsVals tc))) /\
    (~ counted -> expectedArgs tc !! v = None).
Proof.
  intros He Htc.
  pose proof testCases_observed as Hall.
  rewrite Forall_forall in Hall. specialize (Hall e He).
  rewrite Forall_forall in Hall. specialize (Hall tc Htc).
  split; [exact Hall|].
  intros v counted. rewrite Hall, observed_lookup.
  assert (counted <-> v ∈ lseekOpsVals tc /\ passes (specFilterVals e) v) as Hiff.
  { unfold counted, passes. rewrite Exists_exists. tauto. }
  split; intros Hc.
  - rewrite decide_True by tauto. reflexivity.
  - rewrite decide_False by tauto. reflexivity.
Qed.

Lemma testCases_expectedArgs_witness :
  let e := mkTestSpec "Equal" [[8888]; [8889]; [4443]]
             [ mkTestCase [4444; 4443] {[4443 := 1]} ] in
  let tc := mkTestCase [4444; 4443] {[4443 := 1]} in
  e ∈ testCases /\ tc ∈ tests e /\
  expectedArgs tc !! 4443 = Some 1 /\ expectedArgs tc !! 4444 = None.
Proof.
  cbv zeta.
  split; [repeat constructor|]. split; [repeat constructor|].
  split.
  - refine (proj1 (proj2 (testCases_expectedArgs_or_of_alternatives _ _ _ _) 4443) _).
    + repeat constructor.
    + repeat constructor.
    + split; [repeat constructor|].
      exists [4443]. split; repeat constructor.
  - refine (proj2 (proj2 (testCases_expectedArgs_or_of_alternatives _ _ _ _) 4444) _).
    + repeat constructor.
    + repeat constructor.
    + intros [_ (vals & Hvals & Hv)].
      cbn in Hvals.
      repeat (apply elem_of_cons in Hvals as [->|Hvals];
              [ repeat (apply elem_of_cons in Hv as [Hv|Hv]; [discriminate Hv|]);
                by apply elem_of_nil in Hv | ]).
      by apply elem_of_nil in Hvals.
Defined.




(* ================================================================== *)
(** * Properties of the selector core *)

Section CoreProps.
Import core.

Variable inlineThreshold : nat.
Variable maxStringLen : nat.
Variable tableKey : option Z -> list EncodedValue -> Z.
Variable allocTable_ok : Z -> Z -> bool.
Variable updateConfig_ok : Z -> CompiledSelectorBlob -> bool.
Variable decodedType : v1alpha1.KProbeArg -> ArgType.
Variable ctx : IdentityContext.

Abbreviation compile := (compileSelectors inlineThreshold maxStringLen tableKey).
Abbreviation reload' := (reload inlineThreshold maxStringLen tableKey allocTable_ok updateConfig_ok).
Abbreviation Reload :=
  (ReloadGenericTracepointSelectors inlineThreshold maxStringLen tableKey
     allocTable_ok updateConfig_ok decodedType ctx).


(** A name other than the two of the table is an unknown operator. *)
Lemma resolveArgOperator_unknown name :
  name <> "Equal" -> name <> "InMap" ->
  resolveArgOperator name = inr (UnknownOperatorError name).
Proof.
  intros H1 H2. unfold resolveArgOperator.
  rewrite decide_False by done. rewrite decide_False by done. reflexivity.
Qed.

(** A list of steps fails as soon as one of them does. *)
Lemma mapR_fails {A B E : Type} (f : A -> B + E) (l : list A) (x : A) :
  x ∈ l -> (exists e, f x = inr e) -> exists e, mapR f l = inr e.
Proof.
  intros Hx [e He]. induction l as [|a l IH]; [by apply elem_of_nil in Hx|].
  cbn [mapR]. apply elem_of_cons in Hx as [<-|Hx].
  - rewrite He. by eexists.
  - destruct (f a) as [b|e']; cbn [bindR]; [|by eexists].
    destruct (IH Hx) as [e' ->]. by eexists.
Qed.

(** A selector with an argument filter whose operator the table does not
    know does not compile, and neither does a list that holds it. *)
Lemma compileSelector_unknown_operator args c s a :
  a ∈ selArgs s ->
  v1alpha1.ArgOperator a <> "Equal" -> v1alpha1.ArgOperator a <> "InMap" ->
  exists e, compileSelector inlineThreshold maxStringLen tableKey args c s = inr e.
Proof.
  intros Ha H1 H2. unfold compileSelector.
  destruct (match selPID s with
            | Some p => compilePID inlineThreshold tableKey c p
            | None => inl (None, [])
            end) as [pid|e]; cbn [bindR]; [|by eexists].
  destruct (mapR_fails (compileArg maxStringLen tableKey args) (selArgs s) a Ha) as [e ->].
  - unfold compileArg. rewrite resolveArgOperator_unknown by done. by eexists.
  - by eexists.
Qed.

Lemma compileFrom_fails i specs args c s :
  s ∈ specs ->
  (exists e, compileSelector inlineThreshold maxStringLen tableKey args c s = inr e) ->
  exists j k, compileFrom inlineThreshold maxStringLen tableKey i specs args c = inr (j, k).
Proof.
  intros Hs [e He]. revert i. induction specs as [|s0 specs IH]; intros i.
  - by apply elem_of_nil in Hs.
  - cbn [compileFrom]. apply elem_of_cons in Hs as [<-|Hs].
    + rewrite He. by do 2 eexists.
    + destruct (compileSelector _ _ _ args c s0) as [[rec ts]|e0]; [|by do 2 eexists].
      destruct (IH Hs (S i)) as (j & k & ->). cbn [bindR]. by do 2 eexists.
Qed.

(** A reload whose selectors name an operator that the table does not know
    fails, with an error for the attachment, and changes nothing. *)
Lemma reload_unknown_operator p specs args c w s a :
  s ∈ specs -> a ∈ selArgs s ->
  v1alpha1.ArgOperator a <> "Equal" -> v1alpha1.ArgOperator a <> "InMap" ->
  exists j k, reload' p specs args c w = (w, Some (mkError p (Some j) k)).
Proof.
  intros Hs Ha H1 H2.
  destruct (compileFrom_fails 0 specs args c s Hs
              (compileSelector_unknown_operator args c s a Ha H1 H2)) as (j & k & Hc).
  exists j, k. unfold reload, compileSelectors. rewrite Hc. reflexivity.
Qed.

(** A reload changes neither the programs of the sensor nor the set of
    attached programs, whatever its outcome. *)
Lemma reload_frame p specs args c w :
  Progs (fst (reload' p specs args c w)) = Progs w /\
  dom (attached (fst (reload' p specs args c w))) = dom (attached w).
Proof.
  unfold reload.
  destruct (compile specs args c) as [[blob inits]|[i k]]; [|done].
  destruct (attached w !! p) as [att|] eqn:Hatt; [|done].
  destruct (negb _); [done|].
  destruct (negb _); [done|].
  cbn [fst Progs attached]. split; [reflexivity|].
  rewrite dom_insert_L.
  apply (elem_of_dom_2 (D := gset Z)) in Hatt.
  apply set_eq. intros x. rewrite elem_of_union, elem_of_singleton.
  split; [intros [->|?]; done | tauto].
Qed.

(** A reload touches the configuration of no other attachment. *)
Lemma reload_other p q specs args c w :
  p <> q ->
  attached (fst (reload' p specs args c w)) !! q = attached w !! q.
Proof.
  intros Hpq. unfold reload.
  destruct (compile specs args c) as [[blob inits]|[i k]]; [|done].
  destruct (attached w !! p) as [att|] eqn:Hatt; [|done].
  destruct (negb _); [done|].
  destruct (negb _); [done|].
  cbn [fst attached]. by rewrite lookup_insert_ne.
Qed.



(** C4: for a sensor with exactly one program, a successful
    [ReloadGenericTracepointSelectors] on that program leaves the programs
    of the sensor and the set of attached programs as they were: the list
    has length one before and after, and [tpSpecReload] returns. *)
Theorem reload_keeps_number_of_programs
    (w w' : World) (tpProg : Z) (tpSpec : v1alpha1.TracepointSpec) :
  length (Progs w) = 1%nat ->
  Progs w !! 0%nat = Some tpProg ->
  Reload tpProg tpSpec w = (w', None) ->
  length (Progs w') = 1%nat /\
  Progs w' = Progs w /\
  dom (attached w') = dom (attached w) /\
  size (attached w') = size (attached w) /\
  tpSpecReload inlineThreshold maxStringLen tableKey allocTable_ok updateConfig_ok
    decodedType ctx w tpSpec = Returns w'.
Proof.
  intros Hlen H0 Hr.
  pose proof (reload_frame tpProg (toSelectorSpec <$> v1alpha1.Selectors tpSpec)
    ((fun a => mkArgumentSpec (v1alpha1.ArgIndex a) (decodedType a)) <$> v1alpha1.Args tpSpec)
    ctx w) as [HP HD].
  unfold ReloadGenericTracepointSelectors in Hr. rewrite Hr in HP, HD. cbn [fst] in HP, HD.
  assert (length (Progs w') = 1%nat) as Hlen' by (by rewrite HP).
  repeat split; try done.
  - rewrite <- !size_dom, HD. reflexivity.
  - unfold tpSpecReload. rewrite decide_False by (intros ?; congruence).
    rewrite H0. unfold ReloadGenericTracepointSelectors. rewrite Hr.
    rewrite decide_False by (intros ?; congruence). reflexivity.
Qed.


(** ** Follow-forks *)










End CoreProps.

(** ** The properties in the setting of the tracepoint test *)

(** The table of [TestTracepointSelectors] passes on the modelled core: with
    the selectors of [selectorsFromWhenceVals] compiled and published by
    [tpSpecReload], the calls of every test case are counted as expected. *)
Example TestTracepointSelectors_passes :
  fixture.runTable true fixture.loadedWorld testCases = true.
Proof. vm_compute. reflexivity. Qed.


Lemma reload_keeps_number_of_programs_witness :
  let tpSpec := makeSpec fixture.mypid [[4444]; [9999]] "InMap" in
  let w' := fst (fixture.Reload 1 tpSpec fixture.loadedWorld) in
  snd (fixture.Reload 1 tpSpec fixture.loadedWorld) = None
  /\ length (core.Progs fixture.loadedWorld) = 1%nat
  /\ length (core.Progs w') = 1%nat
  /\ size (core.attached w') = size (core.attached fixture.loadedWorld).
Proof.
  cbv zeta. split; [vm_compute; reflexivity|]. split; [reflexivity|].
  pose proof (reload_keeps_number_of_programs
                fixture.inlineThreshold fixture.maxStringLen fixture.key
                (fun p => fixture.loader_ok p) (fun p => fixture.loader_ok p)
                fixture.decodedType fixture.ctx
                fixture.loadedWorld
                (fst (fixture.Reload 1 (makeSpec fixture.mypid [[4444]; [9999]] "InMap")
                        fixture.loadedWorld))
                1 (makeSpec fixture.mypid [[4444]; [9999]] "InMap")) as H.
  destruct H as (Hlen & _ & _ & Hsize & _).
  - reflexivity.
  - reflexivity.
  - vm_compute. reflexivity.
  - split; [exact Hlen | exact Hsize].
Defined.



(* ================================================================== *)
(** * Further properties of the source *)

(** ** Runs of digits *)

Lemma is_digit_value c :
  regexp.is_digit c = true -> 0 <= Z.of_nat (nat_of_ascii c) - 48 <= 9.
Proof.
  unfold regexp.is_digit. intros [H1 H2]%andb_true_iff.
  apply Nat.leb_le in H1, H2. lia.
Qed.

Lemma digits_value_ge s n :
  all_digits s = true -> 0 <= n -> n <= digits_value s n.
Proof.
  revert n. induction s as [|c s IH]; intros n Hs Hn; cbn in *; [lia|].
  apply andb_true_iff in Hs as [Hc Hs]. apply is_digit_value in Hc.
  specialize (IH (n * 10 + (Z.of_nat (nat_of_ascii c) - 48)) Hs). lia.
Qed.

(** The digit loop of [ParseUint] on a run of digits: the number it
    denotes when that fits 32 bits, a range error otherwise. *)
Lemma parse_digits_value s0 s n :
  all_digits s = true -> 0 <= n < 2 ^ 32 ->
  strconv_uint.parse_digits s0 (2 ^ 32 - 1) s n =
    if decide (digits_value s n < 2 ^ 32) then (digits_value s n, None)
    else (2 ^ 32 - 1, Some (strconv.rangeError "ParseUint" s0)).
Proof.
  revert n. induction s as [|c s IH]; intros n Hs Hn.
  - cbn. rewrite decide_True by lia. reflexivity.
  - cbn [all_digits] in Hs. apply andb_true_iff in Hs as [Hc Hs].
    cbn [strconv_uint.parse_digits digits_value]. rewrite Hc. cbn [negb].
    pose proof (is_digit_value c Hc) as Hd.
    set (d := Z.of_nat (nat_of_ascii c) - 48) in *.
    assert (strconv_uint.maxUint64 `div` 10 + 1 = 1844674407370955162) as ->
      by reflexivity.
    rewrite decide_False by lia.
    assert ((n * 10 + d) `mod` 2 ^ 64 = n * 10 + d) as ->
      by (apply Z.mod_small; lia).
    destruct (decide (n * 10 + d < n * 10 \/ 2 ^ 32 - 1 < n * 10 + d)) as [Hbig|Hsmall].
    + pose proof (digits_value_ge s (n * 10 + d) Hs ltac:(lia)).
      rewrite decide_False by lia. reflexivity.
    + apply IH; [done|lia].
Qed.

Lemma ParseUint_10_32_digits d :
  all_digits d = true -> d <> EmptyString ->
  strconv_uint.ParseUint_10_32 d =
    if decide (digits_value d 0 < 2 ^ 32) then (digits_value d 0, None)
    else (2 ^ 32 - 1, Some (strconv.rangeError "ParseUint" d)).
Proof.
  intros Hd Hne. unfold strconv_uint.ParseUint_10_32.
  rewrite decide_False by done. apply parse_digits_value; [done|lia].
Qed.

Lemma parse_field_digits d old :
  all_digits d = true -> d <> EmptyString ->
  parse_field d old = (stored d old, range_err d).
Proof.
  intros Hd Hne. unfold parse_field, stored, range_err.
  rewrite ParseUint_10_32_digits by done.
  pose proof (digits_value_ge d 0 Hd ltac:(lia)).
  destruct (decide (digits_value d 0 < 2 ^ 32)); [|reflexivity].
  unfold uint32. rewrite Z.mod_small by lia. reflexivity.
Qed.

(** ** Matching the patterns *)

Lemma append_String a p s : String a p +:+ s = String a (p +:+ s).
Proof. reflexivity. Qed.

Lemma append_empty s : EmptyString +:+ s = s.
Proof. reflexivity. Qed.

Lemma append_assoc (a b c : string) : (a +:+ b) +:+ c = a +:+ (b +:+ c).
Proof. induction a as [|x a IH]; [reflexivity|]. rewrite !append_String. by rewrite IH. Qed.

Lemma strip_prefix_app p s : regexp.strip_prefix p (p +:+ s) = Some s.
Proof.
  induction p as [|a p IH].
  - by destruct s.
  - rewrite append_String. cbn [regexp.strip_prefix].
    rewrite decide_True by done. exact IH.
Qed.

Lemma span_digits_app d s :
  all_digits d = true -> starts_nondigit s ->
  regexp.span_digits (d +:+ s) = (d, s).
Proof.
  intros Hd Hs. induction d as [|c d IH].
  - rewrite append_empty. destruct s as [|c s]; [reflexivity|].
    cbn in Hs. cbn. rewrite Hs. reflexivity.
  - cbn in Hd. apply andb_true_iff in Hd as [Hc Hd].
    rewrite append_String. cbn [regexp.span_digits]. rewrite Hc, (IH Hd). reflexivity.
Qed.

Lemma match_here_lit p r s :
  regexp.match_here (regexp.Lit p :: r) (p +:+ s) =
    match regexp.match_here r s with
    | Some (m, groups) => Some (p +:+ m, groups)
    | None => None
    end.
Proof.
  cbn [regexp.match_here]. rewrite strip_prefix_app. cbn.
  destruct (regexp.match_here r s) as [[m g]|]; reflexivity.
Qed.

Lemma match_here_digits d r s :
  all_digits d = true -> d <> EmptyString -> starts_nondigit s ->
  regexp.match_here (regexp.Digits :: r) (d +:+ s) =
    match regexp.match_here r s with
    | Some (m, groups) => Some (d +:+ m, d :: groups)
    | None => None
    end.
Proof.
  intros Hd Hne Hs. cbn [regexp.match_here]. rewrite span_digits_app by done.
  cbv beta iota zeta. rewrite decide_False by done.
  destruct (regexp.match_here r s) as [[m g]|]; reflexivity.
Qed.

Lemma nondigit_head_app p s : nondigit_head p -> starts_nondigit (p +:+ s).
Proof. destruct p as [|c p]; [done|]. intros H. rewrite append_String. exact H. Qed.

Lemma FindStringSubmatch_here r s m groups :
  regexp.match_here r s = Some (m, groups) ->
  regexp.FindStringSubmatch r s = m :: groups.
Proof. intros H. destruct s; cbn [regexp.FindStringSubmatch]; rewrite H; reflexivity. Qed.

(** A pattern of three groups between four literals matches the text that
    spells it out, whatever follows, and the groups are the three runs. *)
Lemma match_three_groups p1 p2 p3 p4 d1 d2 d3 rest :
  digit_run d1 -> digit_run d2 -> digit_run d3 ->
  nondigit_head p2 -> nondigit_head p3 -> nondigit_head p4 ->
  regexp.FindStringSubmatch
    [ regexp.Lit p1; regexp.Digits; regexp.Lit p2; regexp.Digits;
      regexp.Lit p3; regexp.Digits; regexp.Lit p4 ]
    (p1 +:+ d1 +:+ p2 +:+ d2 +:+ p3 +:+ d3 +:+ p4 +:+ rest)
  = (p1 +:+ d1 +:+ p2 +:+ d2 +:+ p3 +:+ d3 +:+ p4 +:+ EmptyString) :: [d1; d2; d3].
Proof.
  intros [Hd1 Hn1] [Hd2 Hn2] [Hd3 Hn3] H2 H3 H4.
  apply FindStringSubmatch_here.
  rewrite match_here_lit.
  rewrite match_here_digits by (try done; by apply nondigit_head_app).
  rewrite match_here_lit.
  rewrite match_here_digits by (try done; by apply nondigit_head_app).
  rewrite match_here_lit.
  rewrite match_here_digits by (try done; by apply nondigit_head_app).
  rewrite match_here_lit. reflexivity.
Qed.

Lemma parent_line_eq pid tid ppid rest :
  parent_line pid tid ppid rest =
    ("parent:" +:+ tab +:+ tab +:+ "(pid:") +:+ pid +:+ ", tid:" +:+ tid +:+ ", ppid:"
    +:+ ppid +:+ (")" +:+ tab +:+ "starts") +:+ rest.
Proof. unfold parent_line. rewrite !append_assoc. reflexivity. Qed.

Lemma child1_line_eq pid tid ppid rest :
  child1_line pid tid ppid rest =
    ("Child 1:" +:+ tab +:+ "(pid:") +:+ pid +:+ ", tid:" +:+ tid +:+ ", ppid:"
    +:+ ppid +:+ (")" +:+ tab +:+ "open") +:+ rest.
Proof. unfold child1_line. rewrite !append_assoc. reflexivity. Qed.

Lemma thread1_line_eq pid tid ppid rest :
  thread1_line pid tid ppid rest =
    ("Thread 1:" +:+ tab +:+ "(pid:") +:+ pid +:+ ", tid:" +:+ tid +:+ ", ppid:"
    +:+ ppid +:+ (")" +:+ tab +:+ "open") +:+ rest.
Proof. unfold thread1_line. rewrite !append_assoc. reflexivity. Qed.

(** ** ParseLine on the lines of the three patterns *)

Lemma parentRe_parent_line pid tid ppid rest :
  digit_run pid -> digit_run tid -> digit_run ppid ->
  exists m, regexp.FindStringSubmatch parentRe (parent_line pid tid ppid rest)
            = m :: [pid; tid; ppid].
Proof.
  intros. eexists. rewrite parent_line_eq. unfold parentRe.
  apply match_three_groups; done || reflexivity.
Qed.

Lemma cloneChild1Re_child1_line pid tid ppid rest :
  digit_run pid -> digit_run tid -> digit_run ppid ->
  exists m, regexp.FindStringSubmatch cloneChild1Re (child1_line pid tid ppid rest)
            = m :: [pid; tid; ppid].
Proof.
  intros. eexists. rewrite child1_line_eq. unfold cloneChild1Re.
  apply match_three_groups; done || reflexivity.
Qed.

Lemma cloneThread1Re_thread1_line pid tid ppid rest :
  digit_run pid -> digit_run tid -> digit_run ppid ->
  exists m, regexp.FindStringSubmatch cloneThread1Re (thread1_line pid tid ppid rest)
            = m :: [pid; tid; ppid].
Proof.
  intros. eexists. rewrite thread1_line_eq. unfold cloneThread1Re.
  apply match_three_groups; done || reflexivity.
Qed.

(** X1: on a line that starts with the text of the parent pattern, whatever
    follows it, [ParseLine] stores the pid and the tid when they fit 32
    bits and keeps the old value of one that does not, never stores the
    ppid, changes no child or thread field, and returns the range error of
    the tid, if any. *)
Theorem ParseLine_parent_line (cti : cloneTesterInfo) (pid tid ppid rest : string) :
  digit_run pid -> digit_run tid -> digit_run ppid ->
  ParseLine cti (parent_line pid tid ppid rest) =
    (mkCloneTesterInfo (stored pid (parentPid cti)) (stored tid (parentTid cti))
       (child1Pid cti) (child1Tid cti) (parentChild1Pid cti)
       (thread1Pid cti) (thread1Tid cti) (parentThread1Pid cti),
     range_err tid).
Proof.
  intros Hpid Htid Hppid.
  destruct (parentRe_parent_line pid tid ppid rest Hpid Htid Hppid) as [m Hm].
  unfold ParseLine. rewrite Hm.
  rewrite decide_True by (cbn; lia).
  unfold idx. cbn [lookup list_lookup default from_option id].
  destruct Hpid, Htid.
  rewrite !parse_field_digits by done. reflexivity.
Qed.

(** ** Where a pattern cannot match *)

Lemma find_skip c0 p r c s :
  c <> c0 ->
  regexp.FindStringSubmatch (regexp.Lit (String c0 p) :: r) (String c s)
  = regexp.FindStringSubmatch (regexp.Lit (String c0 p) :: r) s.
Proof.
  intros Hc. cbn [regexp.FindStringSubmatch regexp.match_here regexp.strip_prefix].
  rewrite decide_False by congruence. reflexivity.
Qed.

Lemma find_skip2 c0 c1 p r c s :
  c <> c1 ->
  regexp.FindStringSubmatch (regexp.Lit (String c0 (String c1 p)) :: r)
    (String c0 (String c s))
  = regexp.FindStringSubmatch (regexp.Lit (String c0 (String c1 p)) :: r) (String c s).
Proof.
  intros Hc.
  change (regexp.FindStringSubmatch (regexp.Lit (String c0 (String c1 p)) :: r)
            (String c0 (String c s)))
    with (match regexp.match_here (regexp.Lit (String c0 (String c1 p)) :: r)
                  (String c0 (String c s)) with
          | Some (m, groups) => m :: groups
          | None => regexp.FindStringSubmatch
                      (regexp.Lit (String c0 (String c1 p)) :: r) (String c s)
          end).
  cbn [regexp.match_here regexp.strip_prefix].
  rewrite decide_True by done. rewrite decide_False by congruence. reflexivity.
Qed.

Lemma find_skip_digits c0 p r d s :
  regexp.is_digit c0 = false -> all_digits d = true ->
  regexp.FindStringSubmatch (regexp.Lit (String c0 p) :: r) (d +:+ s)
  = regexp.FindStringSubmatch (regexp.Lit (String c0 p) :: r) s.
Proof.
  intros Hc0 Hd. induction d as [|c d IH]; [by rewrite append_empty|].
  cbn in Hd. apply andb_true_iff in Hd as [Hc Hd].
  rewrite append_String, find_skip by congruence. by apply IH.
Qed.

Ltac skip_text :=
  repeat first
    [ rewrite find_skip by discriminate
    | rewrite find_skip2 by discriminate
    | rewrite find_skip_digits by (done || reflexivity)
    | rewrite append_String
    | rewrite append_empty ].

(** The parent pattern does not match inside the text of a child line or of
    a thread line: a match can only lie in what follows. *)
Lemma parentRe_child1_line pid tid ppid rest :
  digit_run pid -> digit_run tid -> digit_run ppid ->
  regexp.FindStringSubmatch parentRe (child1_line pid tid ppid rest)
  = regexp.FindStringSubmatch parentRe rest.
Proof.
  intros [? _] [? _] [? _]. unfold child1_line, parentRe, tab. skip_text. reflexivity.
Qed.

Lemma parentRe_thread1_line pid tid ppid rest :
  digit_run pid -> digit_run tid -> digit_run ppid ->
  regexp.FindStringSubmatch parentRe (thread1_line pid tid ppid rest)
  = regexp.FindStringSubmatch parentRe rest.
Proof.
  intros [? _] [? _] [? _]. unfold thread1_line, parentRe, tab. skip_text. reflexivity.
Qed.

Lemma cloneChild1Re_thread1_line pid tid ppid rest :
  digit_run pid -> digit_run tid -> digit_run ppid ->
  regexp.FindStringSubmatch cloneChild1Re (thread1_line pid tid ppid rest)
  = regexp.FindStringSubmatch cloneChild1Re rest.
Proof.
  intros [? _] [? _] [? _]. unfold thread1_line, cloneChild1Re, tab. skip_text. reflexivity.
Qed.

(** X2: on a line that starts with the text of the child pattern and holds
    no parent pattern after it, [ParseLine] stores pid, tid and ppid in the
    child fields, each when it fits 32 bits, changes no parent or thread
    field, and returns the range error of the ppid, if any. *)
Theorem ParseLine_child1_line (cti : cloneTesterInfo) (pid tid ppid rest : string) :
  digit_run pid -> digit_run tid -> digit_run ppid ->
  regexp.FindStringSubmatch parentRe rest = [] ->
  ParseLine cti (child1_line pid tid ppid rest) =
    (mkCloneTesterInfo (parentPid cti) (parentTid cti)
       (stored pid (child1Pid cti)) (stored tid (child1Tid cti))
       (stored ppid (parentChild1Pid cti))
       (thread1Pid cti) (thread1Tid cti) (parentThread1Pid cti),
     range_err ppid).
Proof.
  intros Hpid Htid Hppid Hrest.
  destruct (cloneChild1Re_child1_line pid tid ppid rest Hpid Htid Hppid) as [m Hm].
  unfold ParseLine.
  rewrite parentRe_child1_line, Hrest, Hm by done.
  rewrite decide_False by (cbn; lia). rewrite decide_True by (cbn; lia).
  unfold idx. cbn [lookup list_lookup default from_option id].
  destruct Hpid, Htid, Hppid.
  rewrite !parse_field_digits by done. reflexivity.
Qed.

Lemma ParseLine_child1_line_witness :
  ParseLine (mkCloneTesterInfo 1 2 3 4 5 6 7 8)
    (child1_line "143564" "4294967296" "0143563"
       ("(" +:+ dquote +:+ "/etc/issue" +:+ dquote +:+ ") succeeded"))
  = (mkCloneTesterInfo 1 2 143564 4 143563 6 7 8, None).
Proof.
  rewrite ParseLine_child1_line.
  - vm_compute. reflexivity.
  - split; [reflexivity|discriminate].
  - split; [reflexivity|discriminate].
  - split; [reflexivity|discriminate].
  - vm_compute. reflexivity.
Defined.

(** X3: on a line that starts with the text of the thread pattern and holds
    neither a parent nor a child pattern after it, [ParseLine] stores pid,
    tid and ppid in the thread fields, each when it fits 32 bits, changes no
    parent or child field, and returns the range error of the ppid, if any. *)
Theorem ParseLine_thread1_line (cti : cloneTesterInfo) (pid tid ppid rest : string) :
  digit_run pid -> digit_run tid -> digit_run ppid ->
  regexp.FindStringSubmatch parentRe rest = [] ->
  regexp.FindStringSubmatch cloneChild1Re rest = [] ->
  ParseLine cti (thread1_line pid tid ppid rest) =
    (mkCloneTesterInfo (parentPid cti) (parentTid cti)
       (child1Pid cti) (child1Tid cti) (parentChild1Pid cti)
       (stored pid (thread1Pid cti)) (stored tid (thread1Tid cti))
       (stored ppid (parentThread1Pid cti)),
     range_err ppid).
Proof.
  intros Hpid Htid Hppid Hrest1 Hrest2.
  destruct (cloneThread1Re_thread1_line pid tid ppid rest Hpid Htid Hppid) as [m Hm].
  unfold ParseLine.
  rewrite parentRe_thread1_line, Hrest1 by done.
  rewrite cloneChild1Re_thread1_line, Hrest2, Hm by done.
  rewrite !decide_False by (cbn; lia). rewrite decide_True by (cbn; lia).
  unfold idx. cbn [lookup list_lookup default from_option id].
  destruct Hpid, Htid, Hppid.
  rewrite !parse_field_digits by done. reflexivity.
Qed.

Lemma ParseLine_thread1_line_witness :
  ParseLine (mkCloneTesterInfo 1 2 3 4 5 6 7 8)
    (thread1_line "143564" "143565" "99999999999"
       ("(" +:+ dquote +:+ "/etc/issue" +:+ dquote +:+ ") succeeded"))
  = (mkCloneTesterInfo 1 2 3 4 5 143564 143565 8,
     Some (NumErr (strconv.rangeError "ParseUint" "99999999999"))).
Proof.
  rewrite ParseLine_thread1_line.
  - vm_compute. reflexivity.
  - split; [reflexivity|discriminate].
  - split; [reflexivity|discriminate].
  - split; [reflexivity|discriminate].
  - vm_compute. reflexivity.
  - vm_compute. reflexivity.
Defined.

Lemma ParseLine_parent_line_witness :
  ParseLine (mkCloneTesterInfo 1 2 3 4 5 6 7 8)
    (parent_line "143563" "00143563" "7860" " and more")
  = (mkCloneTesterInfo 143563 143563 3 4 5 6 7 8, None).
Proof.
  rewrite ParseLine_parent_line.
  - vm_compute. reflexivity.
  - split; [reflexivity|discriminate].
  - split; [reflexivity|discriminate].
  - split; [reflexivity|discriminate].
Defined.

(** ** What a match looks like on any line *)

Lemma span_digits_all s : all_digits (fst (regexp.span_digits s)) = true.
Proof.
  induction s as [|c s IH]; [reflexivity|]. cbn [regexp.span_digits].
  destruct (regexp.is_digit c) eqn:Hc; [|reflexivity].
  destruct (regexp.span_digits s) as [d rest]. cbn in *. by rewrite Hc, IH.
Qed.

Lemma match_here_groups r s m groups :
  regexp.match_here r s = Some (m, groups) ->
  Forall digit_run groups /\ length groups = num_groups r.
Proof.
  revert s m groups. induction r as [|[p|] r IH]; intros s m groups; cbn [regexp.match_here].
  - intros [= <- <-]. split; [constructor|reflexivity].
  - destruct (regexp.strip_prefix p s) as [rest|]; cbn; [|discriminate].
    destruct (regexp.match_here r rest) as [[m' g']|] eqn:Hr; cbn; [|discriminate].
    intros [= <- <-]. exact (IH _ _ _ Hr).
  - pose proof (span_digits_all s) as Hall.
    destruct (regexp.span_digits s) as [d rest]. cbn [fst] in Hall.
    destruct (decide (d = EmptyString)); [discriminate|].
    destruct (regexp.match_here r rest) as [[m' g']|] eqn:Hr; cbn; [|discriminate].
    intros [= <- <-]. destruct (IH _ _ _ Hr) as [Hg Hlen]. split.
    + constructor; [by split|exact Hg].
    + cbn. by rewrite Hlen.
Qed.

Lemma FindStringSubmatch_shape r s :
  regexp.FindStringSubmatch r s = [] \/
  exists m groups,
    regexp.FindStringSubmatch r s = m :: groups /\
    Forall digit_run groups /\ length groups = num_groups r.
Proof.
  induction s as [|c s IH]; cbn [regexp.FindStringSubmatch].
  - destruct (regexp.match_here r EmptyString) as [[m g]|] eqn:Hm; [|by left].
    right. exists m, g. split; [reflexivity|]. by eapply match_here_groups.
  - destruct (regexp.match_here r (String c s)) as [[m g]|] eqn:Hm; [|exact IH].
    right. exists m, g. split; [reflexivity|]. by eapply match_here_groups.
Qed.

Lemma patterns_shape (r : regexp.Regexp) (l : string) :
  r ∈ [parentRe; cloneChild1Re; cloneThread1Re] ->
  regexp.FindStringSubmatch r l = [] \/
  exists m d1 d2 d3,
    regexp.FindStringSubmatch r l = [m; d1; d2; d3] /\
    digit_run d1 /\ digit_run d2 /\ digit_run d3.
Proof.
  intros Hr.
  destruct (FindStringSubmatch_shape r l) as [Hnil|(m & g & Hm & Hg & Hlen)]; [by left|].
  right.
  assert (num_groups r = 3%nat) as Hn.
  { repeat (apply elem_of_cons in Hr as [->|Hr]; [reflexivity|]).
    by apply elem_of_nil in Hr. }
  rewrite Hn in Hlen.
  destruct g as [|d1 [|d2 [|d3 [|? ?]]]]; try discriminate.
  exists m, d1, d2, d3. split; [exact Hm|].
  apply Forall_cons in Hg as [H1 Hg]. apply Forall_cons in Hg as [H2 Hg].
  apply Forall_cons in Hg as [H3 _]. done.
Qed.

(** X4: for each of the three patterns and every line, [FindStringSubmatch]
    returns the empty slice or exactly four strings, the match and three
    groups that are runs of one or more digits: the indices 1, 2 and 3 that
    [ParseLine] reads exist whenever the slice is not empty. *)
Theorem FindStringSubmatch_nil_or_three_groups (r : regexp.Regexp) (l : string) :
  r ∈ [parentRe; cloneChild1Re; cloneThread1Re] ->
  regexp.FindStringSubmatch r l = [] \/
  exists m d1 d2 d3,
    regexp.FindStringSubmatch r l = [m; d1; d2; d3] /\
    digit_run d1 /\ digit_run d2 /\ digit_run d3.
Proof. exact (patterns_shape r l). Qed.

Lemma FindStringSubmatch_three_groups_witness :
  regexp.FindStringSubmatch cloneThread1Re sample_thread1 <> [] /\
  length (regexp.FindStringSubmatch cloneThread1Re sample_thread1) = 4%nat.
Proof.
  destruct (FindStringSubmatch_nil_or_three_groups cloneThread1Re sample_thread1)
    as [Hnil|(m & d1 & d2 & d3 & Hm & _)].
  - repeat constructor.
  - vm_compute in Hnil. discriminate Hnil.
  - rewrite Hm. split; [discriminate|reflexivity].
Defined.

(** What [ParseLine] does, by the first pattern that matches the line. *)
Lemma ParseLine_cases (cti : cloneTesterInfo) (l : string) :
  (exists m d1 d2 d3,
     regexp.FindStringSubmatch parentRe l = [m; d1; d2; d3] /\
     digit_run d1 /\ digit_run d2 /\ digit_run d3 /\
     ParseLine cti l =
       (mkCloneTesterInfo (stored d1 (parentPid cti)) (stored d2 (parentTid cti))
          (child1Pid cti) (child1Tid cti) (parentChild1Pid cti)
          (thread1Pid cti) (thread1Tid cti) (parentThread1Pid cti),
        range_err d2))
  \/ (exists m d1 d2 d3,
        regexp.FindStringSubmatch parentRe l = [] /\
        regexp.FindStringSubmatch cloneChild1Re l = [m; d1; d2; d3] /\
        digit_run d1 /\ digit_run d2 /\ digit_run d3 /\
        ParseLine cti l =
          (mkCloneTesterInfo (parentPid cti) (parentTid cti)
             (stored d1 (child1Pid cti)) (stored d2 (child1Tid cti))
             (stored d3 (parentChild1Pid cti))
             (thread1Pid cti) (thread1Tid cti) (parentThread1Pid cti),
           range_err d3))
  \/ (exists m d1 d2 d3,
        regexp.FindStringSubmatch parentRe l = [] /\
        regexp.FindStringSubmatch cloneChild1Re l = [] /\
        regexp.FindStringSubmatch cloneThread1Re l = [m; d1; d2; d3] /\
        digit_run d1 /\ digit_run d2 /\ digit_run d3 /\
        ParseLine cti l =
          (mkCloneTesterInfo (parentPid cti) (parentTid cti)
             (child1Pid cti) (child1Tid cti) (parentChild1Pid cti)
             (stored d1 (thread1Pid cti)) (stored d2 (thread1Tid cti))
             (stored d3 (parentThread1Pid cti)),
           range_err d3))
  \/ (regexp.FindStringSubmatch parentRe l = [] /\
      regexp.FindStringSubmatch cloneChild1Re l = [] /\
      regexp.FindStringSubmatch cloneThread1Re l = [] /\
      ParseLine cti l = (cti, None)).
Proof.
  unfold ParseLine.
  destruct (patterns_shape parentRe l)
    as [Hp|(m & d1 & d2 & d3 & Hp & [? ?] & [? ?] & [? ?])]; [repeat constructor| |].
  2:{ left. exists m, d1, d2, d3. rewrite Hp.
      rewrite decide_True by (cbn; lia).
      unfold idx. cbn [lookup list_lookup default from_option id].
      rewrite !parse_field_digits by done. repeat split; done. }
  right. rewrite Hp. rewrite decide_False by (cbn; lia).
  destruct (patterns_shape cloneChild1Re l)
    as [Hc|(m & d1 & d2 & d3 & Hc & [? ?] & [? ?] & [? ?])]; [repeat constructor| |].
  2:{ left. exists m, d1, d2, d3. rewrite Hc.
      rewrite decide_True by (cbn; lia).
      unfold idx. cbn [lookup list_lookup default from_option id].
      rewrite !parse_field_digits by done. repeat split; done. }
  right. rewrite Hc. rewrite decide_False by (cbn; lia).
  destruct (patterns_shape cloneThread1Re l)
    as [Ht|(m & d1 & d2 & d3 & Ht & [? ?] & [? ?] & [? ?])]; [repeat constructor| |].
  2:{ left. exists m, d1, d2, d3. rewrite Ht.
      rewrite decide_True by (cbn; lia).
      unfold idx. cbn [lookup list_lookup default from_option id].
      rewrite !parse_field_digits by done. repeat split; done. }
  right. rewrite Ht. rewrite decide_False by (cbn; lia). done.
Qed.

(** X5: the only error that [ParseLine] returns is a range error of
    [ParseUint], for a run of digits whose number does not fit 32 bits: the
    patterns leave no room for a syntax error. *)
Theorem ParseLine_error_is_range_error (cti : cloneTesterInfo) (l : string) (e : error) :
  snd (ParseLine cti l) = Some e ->
  exists d, digit_run d /\ 2 ^ 32 <= digits_value d 0 /\
            e = NumErr (strconv.rangeError "ParseUint" d).
Proof.
  assert (forall d, digit_run d -> range_err d = Some e ->
            exists d, digit_run d /\ 2 ^ 32 <= digits_value d 0 /\
                      e = NumErr (strconv.rangeError "ParseUint" d)) as Hrange.
  { intros d Hd. unfold range_err.
    destruct (decide (digits_value d 0 < 2 ^ 32)); [discriminate|].
    intros [= <-]. exists d. repeat split; [apply Hd..|lia]. }
  destruct (ParseLine_cases cti l)
    as [(m & d1 & d2 & d3 & _ & ? & ? & ? & ->)
       |[(m & d1 & d2 & d3 & _ & _ & ? & ? & ? & ->)
        |[(m & d1 & d2 & d3 & _ & _ & _ & ? & ? & ? & ->)
         |(_ & _ & _ & ->)]]]; cbn [snd]; eauto.
  discriminate.
Qed.

Lemma ParseLine_error_is_range_error_witness :
  exists d, digit_run d /\ 2 ^ 32 <= digits_value d 0 /\
    NumErr (strconv.rangeError "ParseUint" "99999999999")
    = NumErr (strconv.rangeError "ParseUint" d).
Proof.
  apply (ParseLine_error_is_range_error (mkCloneTesterInfo 1 2 3 4 5 6 7 8)
           (child1_line "11" "12" "99999999999" EmptyString)).
  vm_compute. reflexivity.
Defined.

Lemma stored_stored d old : stored d (stored d old) = stored d old.
Proof. unfold stored. destruct (decide (digits_value d 0 < 2 ^ 32)); reflexivity. Qed.

(** X6: parsing a line a second time changes nothing: the record after two
    calls of [ParseLine] on the same line, and the error returned, are those
    of the first call. *)
Theorem ParseLine_idempotent (cti : cloneTesterInfo) (l : string) :
  ParseLine (fst (ParseLine cti l)) l = ParseLine cti l.
Proof.
  destruct (ParseLine_cases cti l)
    as [(m & d1 & d2 & d3 & Hp & _ & _ & _ & H1)
       |[(m & d1 & d2 & d3 & Hp & Hc & _ & _ & _ & H1)
        |[(m & d1 & d2 & d3 & Hp & Hc & Ht & _ & _ & _ & H1)
         |(Hp & Hc & Ht & H1)]]]; rewrite H1; cbn [fst].
  - destruct (ParseLine_cases
                (mkCloneTesterInfo (stored d1 (parentPid cti)) (stored d2 (parentTid cti))
                   (child1Pid cti) (child1Tid cti) (parentChild1Pid cti)
                   (thread1Pid cti) (thread1Tid cti) (parentThread1Pid cti)) l)
      as [(m' & e1 & e2 & e3 & Hp' & _ & _ & _ & H2)
         |[(? & ? & ? & ? & Hp' & _)|[(? & ? & ? & ? & Hp' & _)|(Hp' & _)]]];
      try congruence.
    rewrite H2. rewrite Hp in Hp'. injection Hp' as <- <- <- <-.
    cbn. rewrite !stored_stored. reflexivity.
  - destruct (ParseLine_cases
                (mkCloneTesterInfo (parentPid cti) (parentTid cti)
                   (stored d1 (child1Pid cti)) (stored d2 (child1Tid cti))
                   (stored d3 (parentChild1Pid cti))
                   (thread1Pid cti) (thread1Tid cti) (parentThread1Pid cti)) l)
      as [(? & ? & ? & ? & Hp' & _)
         |[(m' & e1 & e2 & e3 & _ & Hc' & _ & _ & _ & H2)
          |[(? & ? & ? & ? & _ & Hc' & _)|(_ & Hc' & _)]]];
      try congruence.
    rewrite H2. rewrite Hc in Hc'. injection Hc' as <- <- <- <-.
    cbn. rewrite !stored_stored. reflexivity.
  - destruct (ParseLine_cases
                (mkCloneTesterInfo (parentPid cti) (parentTid cti)
                   (child1Pid cti) (child1Tid cti) (parentChild1Pid cti)
                   (stored d1 (thread1Pid cti)) (stored d2 (thread1Tid cti))
                   (stored d3 (parentThread1Pid cti))) l)
      as [(? & ? & ? & ? & Hp' & _)
         |[(? & ? & ? & ? & _ & Hc' & _)
          |[(m' & e1 & e2 & e3 & _ & _ & Ht' & _ & _ & _ & H2)|(_ & _ & Ht' & _)]]];
      try congruence.
    rewrite H2. rewrite Ht in Ht'. injection Ht' as <- <- <- <-.
    cbn. rewrite !stored_stored. reflexivity.
  - exact H1.
Qed.

(** ** Decimal printing and the digits read back *)

Lemma append_empty_r (s : string) : s +:+ EmptyString = s.
Proof. induction s as [|c s IH]; [reflexivity|]. by rewrite append_String, IH. Qed.

Lemma all_digits_app a b :
  all_digits (a +:+ b) = all_digits a && all_digits b.
Proof.
  induction a as [|c a IH]; [reflexivity|].
  rewrite append_String. cbn. rewrite IH. by rewrite andb_assoc.
Qed.

Lemma digits_value_app a b n :
  digits_value (a +:+ b) n = digits_value b (digits_value a n).
Proof.
  revert n. induction a as [|c a IH]; intros n; [reflexivity|].
  rewrite append_String. cbn. apply IH.
Qed.

Lemma pretty_N_char_digit k :
  (k < 10)%N ->
  regexp.is_digit (pretty_N_char k) = true /\
  Z.of_nat (nat_of_ascii (pretty_N_char k)) - 48 = Z.of_N k.
Proof.
  intros Hk.
  assert (k = 0 \/ k = 1 \/ k = 2 \/ k = 3 \/ k = 4 \/ k = 5 \/ k = 6 \/ k = 7
          \/ k = 8 \/ k = 9)%N as Hcases by lia.
  repeat (destruct Hcases as [->|Hcases]; [split; reflexivity|]).
  subst k. split; reflexivity.
Qed.

Lemma length_app_string (a b : string) :
  String.length (a +:+ b) = (String.length a + String.length b)%nat.
Proof.
  induction a as [|c a IH]; [reflexivity|]. rewrite append_String. cbn. by rewrite IH.
Qed.

(** [pretty_N_go x s] puts the decimal digits of [x] in front of [s]. *)
Lemma pretty_N_go_digits (x : N) :
  forall s, exists a,
    pretty_N_go x s = a +:+ s /\ all_digits a = true /\
    ((0 < x)%N -> a <> EmptyString) /\
    forall n, digits_value a n = n * 10 ^ Z.of_nat (String.length a) + Z.of_N x.
Proof.
  induction (N.lt_wf_0 x) as [x _ IH]. intros s.
  destruct (decide (x = 0%N)) as [->|Hx].
  - exists EmptyString. rewrite pretty_N_go_0. repeat split; try done; try lia.
    intros n. cbn. lia.
  - rewrite pretty_N_go_step by lia.
    destruct (IH (x `div` 10)%N ltac:(apply N.div_lt; lia)
                (String (pretty_N_char (x `mod` 10)) s)) as (a & Ha & Hd & _ & Hv).
    destruct (pretty_N_char_digit (x `mod` 10)%N) as [Hc Hval];
      [apply N.mod_lt; lia|].
    exists (a +:+ String (pretty_N_char (x `mod` 10)) EmptyString).
    rewrite Ha, append_assoc, append_String, append_empty.
    split; [reflexivity|]. split.
    { rewrite all_digits_app, Hd. cbn. by rewrite Hc. }
    split.
    { intros _. destruct a; discriminate. }
    intros n. rewrite digits_value_app, Hv. cbn [digits_value]. rewrite Hval.
    rewrite length_app_string. cbn [String.length].
    replace (Z.of_nat (String.length a + 1)) with (Z.succ (Z.of_nat (String.length a)))
      by lia.
    rewrite Z.pow_succ_r by lia.
    pose proof (N.div_mod x 10 ltac:(lia)) as Hdm.
    assert (Z.of_N x = 10 * Z.of_N (x `div` 10) + Z.of_N (x `mod` 10)) as -> by lia.
    ring.
Qed.

Lemma Sprintf_d_digits (z : Z) :
  0 <= z -> digit_run (Sprintf_d z) /\ digits_value (Sprintf_d z) 0 = z.
Proof.
  intros Hz. unfold Sprintf_d, pretty, pretty_Z.
  destruct z as [|p|p]; [split; [split; [reflexivity|discriminate]|reflexivity]| |lia].
  unfold pretty, pretty_positive, pretty, pretty_N.
  rewrite decide_False by discriminate.
  destruct (pretty_N_go_digits (N.pos p) EmptyString) as (a & Ha & Hd & Hne & Hv).
  rewrite Ha, append_empty_r. split; [split; [exact Hd|apply Hne; lia]|].
  rewrite Hv. lia.
Qed.

(** X7: a parent line printed from numbers is read back: when pid and tid
    are below 2^32, [ParseLine] on the line with their decimal forms stores
    exactly these numbers in [parentPid] and [parentTid] and returns nil,
    whatever the ppid and whatever follows on the line. *)
Theorem ParseLine_parent_round_trip
    (cti : cloneTesterInfo) (pid tid ppid : Z) (rest : string) :
  0 <= pid < 2 ^ 32 -> 0 <= tid < 2 ^ 32 -> 0 <= ppid ->
  ParseLine cti (parent_line (Sprintf_d pid) (Sprintf_d tid) (Sprintf_d ppid) rest) =
    (mkCloneTesterInfo pid tid
       (child1Pid cti) (child1Tid cti) (parentChild1Pid cti)
       (thread1Pid cti) (thread1Tid cti) (parentThread1Pid cti),
     None).
Proof.
  intros Hpid Htid Hppid.
  destruct (Sprintf_d_digits pid) as [Hr1 Hv1]; [lia|].
  destruct (Sprintf_d_digits tid) as [Hr2 Hv2]; [lia|].
  destruct (Sprintf_d_digits ppid) as [Hr3 _]; [lia|].
  destruct (parentRe_parent_line _ _ _ rest Hr1 Hr2 Hr3) as [m Hm].
  unfold ParseLine. rewrite Hm. rewrite decide_True by (cbn; lia).
  unfold idx. cbn [lookup list_lookup default from_option id].
  destruct Hr1, Hr2.
  rewrite !parse_field_digits by done.
  unfold stored, range_err. rewrite Hv1, Hv2.
  rewrite !decide_True by lia. reflexivity.
Qed.

Lemma ParseLine_parent_round_trip_witness :
  ParseLine (mkCloneTesterInfo 1 2 3 4 5 6 7 8)
    (parent_line (Sprintf_d 143563) (Sprintf_d 4294967295) (Sprintf_d 7860) EmptyString)
  = (mkCloneTesterInfo 143563 4294967295 3 4 5 6 7 8, None).
Proof. apply ParseLine_parent_round_trip; lia. Defined.

(** X8: child and thread lines printed from numbers are read back: when
    pid, tid and ppid are below 2^32 and the rest of the line holds no
    earlier pattern, [ParseLine] stores exactly these numbers in the three
    child fields, or in the three thread fields, and returns nil. *)
Theorem ParseLine_child_thread_round_trip
    (cti : cloneTesterInfo) (pid tid ppid : Z) (rest : string) :
  0 <= pid < 2 ^ 32 -> 0 <= tid < 2 ^ 32 -> 0 <= ppid < 2 ^ 32 ->
  regexp.FindStringSubmatch parentRe rest = [] ->
  regexp.FindStringSubmatch cloneChild1Re rest = [] ->
  ParseLine cti (child1_line (Sprintf_d pid) (Sprintf_d tid) (Sprintf_d ppid) rest) =
    (mkCloneTesterInfo (parentPid cti) (parentTid cti)
       pid tid ppid
       (thread1Pid cti) (thread1Tid cti) (parentThread1Pid cti),
     None)
  /\ ParseLine cti (thread1_line (Sprintf_d pid) (Sprintf_d tid) (Sprintf_d ppid) rest) =
       (mkCloneTesterInfo (parentPid cti) (parentTid cti)
          (child1Pid cti) (child1Tid cti) (parentChild1Pid cti)
          pid tid ppid,
        None).
Proof.
  intros Hpid Htid Hppid Hrest1 Hrest2.
  destruct (Sprintf_d_digits pid) as [Hr1 Hv1]; [lia|].
  destruct (Sprintf_d_digits tid) as [Hr2 Hv2]; [lia|].
  destruct (Sprintf_d_digits ppid) as [Hr3 Hv3]; [lia|].
  split.
  - destruct (cloneChild1Re_child1_line _ _ _ rest Hr1 Hr2 Hr3) as [m Hm].
    unfold ParseLine. rewrite parentRe_child1_line, Hrest1, Hm by done.
    rewrite decide_False by (cbn; lia). rewrite decide_True by (cbn; lia).
    unfold idx. cbn [lookup list_lookup default from_option id].
    destruct Hr1, Hr2, Hr3.
    rewrite !parse_field_digits by done.
    unfold stored, range_err. rewrite Hv1, Hv2, Hv3.
    rewrite !decide_True by lia. reflexivity.
  - destruct (cloneThread1Re_thread1_line _ _ _ rest Hr1 Hr2 Hr3) as [m Hm].
    unfold ParseLine. rewrite parentRe_thread1_line, Hrest1 by done.
    rewrite cloneChild1Re_thread1_line, Hrest2, Hm by done.
    rewrite !decide_False by (cbn; lia). rewrite decide_True by (cbn; lia).
    unfold idx. cbn [lookup list_lookup default from_option id].
    destruct Hr1, Hr2, Hr3.
    rewrite !parse_field_digits by done.
    unfold stored, range_err. rewrite Hv1, Hv2, Hv3.
    rewrite !decide_True by lia. reflexivity.
Qed.

Lemma ParseLine_child_thread_round_trip_witness :
  ParseLine (mkCloneTesterInfo 1 2 3 4 5 6 7 8)
    (thread1_line (Sprintf_d 143564) (Sprintf_d 143565) (Sprintf_d 143563)
       ("(" +:+ dquote +:+ "/etc/issue" +:+ dquote +:+ ") succeeded"))
  = (mkCloneTesterInfo 1 2 3 4 5 143564 143565 143563, None).
Proof.
  refine (proj2 (ParseLine_child_thread_round_trip _ _ _ _ _ _ _ _ _ _)).
  - lia.
  - lia.
  - lia.
  - vm_compute. reflexivity.
  - vm_compute. reflexivity.
Defined.

(** ** getKprobeOptions: the log and lists put together *)

(** X9: [getKprobeOptions] logs one line for every option it sets, in list
    order, and nothing else: on success the lines are those of the specs
    named by the key, and on failure those of the named specs before the
    first one that is rejected. *)
Theorem getKprobeOptions_logs_what_it_sets (K : string) (specs : list v1alpha1.OptionSpec) :
  ((forall s, s ∈ specs -> v1alpha1.Name s = K -> accepted s) ->
   snd (getKprobeOptions_log K specs)
   = logged <$> filter (fun s => v1alpha1.Name s = K) specs)
  /\ (forall pre s post,
        specs = (pre ++ s :: post)%list ->
        v1alpha1.Name s = K -> ~ accepted s ->
        (forall s', s' ∈ pre -> v1alpha1.Name s' = K -> accepted s') ->
        snd (getKprobeOptions_log K specs)
        = logged <$> filter (fun s => v1alpha1.Name s = K) pre).
Proof.
  split.
  - intros Hok. rewrite (getKprobeOptions_log_accepted K specs Hok). reflexivity.
  - intros pre s post -> HK Hrej Hpre.
    destruct (snd (strconv.ParseBool (v1alpha1.Value s))) as [ne|] eqn:Hne;
      [|by destruct Hrej].
    rewrite (getKprobeOptions_log_rejected K pre s post ne HK Hne Hpre). reflexivity.
Qed.

Lemma getKprobeOptions_no_named K specs :
  filter (fun s => v1alpha1.Name s = K) specs = [] ->
  forall s, s ∈ specs -> v1alpha1.Name s = K -> accepted s.
Proof.
  intros Hnil s Hs HK. exfalso.
  assert (s ∈ filter (fun s => v1alpha1.Name s = K) specs) as Hin
    by (by apply list_elem_of_filter).
  rewrite Hnil in Hin. by apply elem_of_nil in Hin.
Qed.

(** X10: for two lists put together, an error of the first list is the
    result; otherwise the result is that of the second list when it has a
    spec named by the key, and that of the first list when it has none: a
    later setting replaces an earlier one, and specs after a failure are
    not looked at. *)
Theorem getKprobeOptions_app (K : string) (l1 l2 : list v1alpha1.OptionSpec) :
  (forall e, snd (getKprobeOptions K l1) = Some e ->
     getKprobeOptions K (l1 ++ l2) = (None, Some e))
  /\ (snd (getKprobeOptions K l1) = None ->
      filter (fun s => v1alpha1.Name s = K) l2 <> [] ->
      getKprobeOptions K (l1 ++ l2) = getKprobeOptions K l2)
  /\ (snd (getKprobeOptions K l1) = None ->
      filter (fun s => v1alpha1.Name s = K) l2 = [] ->
      getKprobeOptions K (l1 ++ l2) = getKprobeOptions K l1).
Proof.
  unfold getKprobeOptions.
  destruct (first_rejected K l1) as [Hok1|(pre & s & post & ne & -> & HK & Hne & Hpre)].
  - rewrite (getKprobeOptions_log_accepted K l1 Hok1). cbn [fst snd].
    split; [discriminate|].
    destruct (first_rejected K l2) as [Hok2|(pre & s & post & ne & -> & HK & Hne & Hpre)].
    + assert (forall s, s ∈ (l1 ++ l2)%list -> v1alpha1.Name s = K -> accepted s) as Hok.
      { intros s [?|?]%elem_of_app ?; [by apply Hok1|by apply Hok2]. }
      rewrite (getKprobeOptions_log_accepted K _ Hok).
      rewrite (getKprobeOptions_log_accepted K l2 Hok2). cbn [fst].
      rewrite filter_app, last_app. split.
      * intros _ Hne.
        destruct (last (filter (fun s => v1alpha1.Name s = K) l2)) as [x|] eqn:Hl;
          [reflexivity|].
        apply last_None in Hl. done.
      * intros _ ->. reflexivity.
    + split.
      * intros _ _.
        rewrite app_assoc.
        rewrite (getKprobeOptions_log_rejected K (l1 ++ pre) s post ne HK Hne).
        -- rewrite (getKprobeOptions_log_rejected K pre s post ne HK Hne Hpre).
           reflexivity.
        -- intros s' [?|?]%elem_of_app ?; [by apply Hok1|by apply Hpre].
      * intros _ Hnil. exfalso.
        rewrite filter_app, filter_cons, decide_True in Hnil by done.
        by destruct (filter (fun s0 => v1alpha1.Name s0 = K) pre).
  - rewrite <- app_assoc. cbn [app].
    rewrite !(getKprobeOptions_log_rejected K pre s _ ne HK Hne Hpre). cbn [fst snd].
    split; [|split]; [|discriminate..].
    intros e [= <-]. reflexivity.
Qed.

Example getKprobeOptions_app_later_wins :
  getKprobeOptions "k" ([v1alpha1.mkOptionSpec "k" "true"]
                        ++ [v1alpha1.mkOptionSpec "x" "?"; v1alpha1.mkOptionSpec "k" "0"])
  = (Some (mkKprobeOptions false), None).
Proof. vm_compute. reflexivity. Qed.

(** ** selectorsFromWhenceVals: the filter values can be read back *)

(** X11: [selectorsFromWhenceVals] is injective in the filter values: two
    lists of value lists that give the same selectors, for the same pid,
    index and operator, are equal. *)
Theorem selectorsFromWhenceVals_inj
    (mypid : Z) (whenceIdx : Z) (filterOperator : string) (fw1 fw2 : list (list Z)) :
  selectorsFromWhenceVals mypid fw1 whenceIdx filterOperator
  = selectorsFromWhenceVals mypid fw2 whenceIdx filterOperator ->
  fw1 = fw2.
Proof.
  rewrite !selectorsFromWhenceVals_eq.
  assert (Inj (=) (=) (selector_of mypid whenceIdx filterOperator)) as Hinj.
  { intros v1 v2 Heq. unfold selector_of in Heq. injection Heq as Heq.
    revert Heq. apply (inj (fmap Sprintf_d)). }
  destruct fw1 as [|v1 fw1], fw2 as [|v2 fw2]; intros Heq.
  - reflexivity.
  - cbn in Heq. discriminate Heq.
  - cbn in Heq. discriminate Heq.
  - revert Heq. apply (inj (fmap (selector_of mypid whenceIdx filterOperator))).
Qed.

Lemma selectorsFromWhenceVals_inj_witness :
  [[4443]; [9999]] = [[4443]; [9999]].
Proof.
  apply (selectorsFromWhenceVals_inj 77 7 "Equal"). reflexivity.
Defined.

(** ** The callbacks of runAndCheck *)

Lemma count_whence_comm ret w1 w2 :
  count_whence (count_whence ret w1) w2 = count_whence (count_whence ret w2) w1.
Proof.
  unfold count_whence. destruct (decide (w1 = w2)) as [->|Hne]; [reflexivity|].
  rewrite !lookup_insert_ne by congruence. apply insert_insert_ne. congruence.
Qed.

(** What one call of the tracepoint callback does, whatever the counter:
    it returns an error, leaves the counter, or counts one whence value. *)
Lemma checkEvent_form B ev :
  (exists e, forall ret, checkEvent B ret ev = inr e) \/
  (forall ret, checkEvent B ret ev = inl ret) \/
  (exists w, forall ret, checkEvent B ret ev = inl (count_whence ret w)).
Proof.
  destruct ev as [subsys event args|]; [|right; left; reflexivity].
  unfold checkEvent.
  destruct (decide (subsys <> "syscalls" \/ event <> "sys_enter_lseek")); [left; eauto|].
  destruct (decide (length args <> 1%nat)); [left; eauto|].
  destruct (args !! 0%nat) as [[w|]|]; [|left; eauto..].
  destruct (decide (w = B `mod` 2 ^ 64)); [right; left; reflexivity|].
  right; right. eauto.
Qed.

Lemma feed_cons B ret ev evs :
  feed B ret (ev :: evs) =
    match checkEvent B ret ev with
    | inl ret' => feed B ret' evs
    | inr _ => None
    end.
Proof.
  unfold feed. cbn [foldl].
  destruct (checkEvent B ret ev) as [ret'|e]; [reflexivity|].
  induction evs as [|x evs IH]; [reflexivity|exact IH].
Qed.

Lemma feed_perm B ret evs evs' :
  evs ≡ₚ evs' -> feed B ret evs = feed B ret evs'.
Proof.
  intros Hp. revert ret. induction Hp as [|x l l' _ IH|x y l|l l' l'' _ IH1 _ IH2];
    intros ret.
  - reflexivity.
  - rewrite !feed_cons. destruct (checkEvent B ret x); [apply IH|reflexivity].
  - rewrite !feed_cons.
    destruct (checkEvent_form B x) as [[e Hx]|[Hx|[w Hx]]],
             (checkEvent_form B y) as [[e' Hy]|[Hy|[w' Hy]]];
      rewrite ?Hx, ?Hy, ?feed_cons, ?Hx, ?Hy; try reflexivity.
    by rewrite count_whence_comm.
  - by rewrite IH1.
Qed.

(** X12: the counter that the tracepoint callback builds does not depend on
    the order in which the events arrive: for two lists of messages that
    are permutations of each other, the callback fails on both or leaves
    the same counter. *)
Theorem runAndCheck_order_independent
    (BogusWhenceVal : Z) (ret : gmap Z Z) (evs evs' : list Message) :
  evs ≡ₚ evs' -> feed BogusWhenceVal ret evs = feed BogusWhenceVal ret evs'.
Proof. apply feed_perm. Qed.

Lemma runAndCheck_order_independent_witness :
  feed 4729 ∅ [lseekEvent 9999; MsgOther; lseekEvent 4443; lseekEvent 4729]
  = feed 4729 ∅ [lseekEvent 4443; lseekEvent 4729; lseekEvent 9999; MsgOther].
Proof.
  apply runAndCheck_order_independent.
  apply (Permutation_app_comm [lseekEvent 9999; MsgOther] [lseekEvent 4443; lseekEvent 4729]).
Defined.

Lemma checkEvent_lseek B ret w :
  checkEvent B ret (lseekEvent w)
  = inl (if decide (w = B `mod` 2 ^ 64) then ret else count_whence ret w).
Proof.
  unfold checkEvent, lseekEvent.
  rewrite decide_False by (intros [H|H]; by apply H).
  rewrite decide_False by (intros H; by apply H).
  cbn [lookup list_lookup].
  destruct (decide (w = B `mod` 2 ^ 64)); reflexivity.
Qed.

Lemma feed_lseek B ret ws :
  feed B ret (lseekEvent <$> ws)
  = Some (foldl count_whence ret (filter (fun w => w <> B `mod` 2 ^ 64) ws)).
Proof.
  revert ret. induction ws as [|w ws IH]; intros ret; [reflexivity|].
  rewrite fmap_cons, feed_cons, filter_cons, checkEvent_lseek.
  destruct (decide (w = B `mod` 2 ^ 64)) as [Hw|Hw].
  - rewrite decide_False by (intros H; by apply H). apply IH.
  - rewrite decide_True by done. cbn [foldl]. apply IH.
Qed.

(** X13: fed the events of a sequence of lseek calls, the tracepoint
    callback never fails and ends with the frequency map of the whence
    values: a value is a key iff some call used it and it is not the bogus
    value of the test sensor, and its count is the number of calls that
    used it. *)
Theorem runAndCheck_counts_lseek_events (BogusWhenceVal : Z) (ws : list Z) :
  exists ret,
    feed BogusWhenceVal ∅ (lseekEvent <$> ws) = Some ret /\
    forall v : Z,
      (v ∈ ws -> v <> BogusWhenceVal `mod` 2 ^ 64 -> ret !! v = Some (calls_with v ws)) /\
      (v ∉ ws -> ret !! v = None) /\
      (v = BogusWhenceVal `mod` 2 ^ 64 -> ret !! v = None).
Proof.
  eexists. split; [apply feed_lseek|].
  intros v. rewrite foldl_count_whence_lookup, lookup_empty. cbn [default from_option].
  repeat split.
  - intros Hin Hv. rewrite decide_True by (by apply list_elem_of_filter).
    f_equal. unfold calls_with, id. rewrite list_filter_filter.
    rewrite (list_filter_iff _ (fun x => x = v)); [lia|].
    intros x. split; [tauto|]. intros ->. done.
  - intros Hv. rewrite decide_False; [reflexivity|].
    intros [_ ?]%list_elem_of_filter. done.
  - intros Hv. rewrite decide_False; [reflexivity|].
    intros [? _]%list_elem_of_filter. done.
Qed.

Example runAndCheck_counts_sample :
  feed 4729 ∅ (lseekEvent <$> [4443; 4729; 4444; 4443])
  = Some {[4443 := 2; 4444 := 1]}.
Proof. vm_compute. reflexivity. Qed.

(** X14: on the event of an lseek that returned -EBADF, the kprobe
    callback does what the tracepoint callback does on the same whence
    value read as a [uint64]: for a whence from 0 to 2^31 - 1 the two
    callbacks update the counter alike, and a negative whence [w] is
    counted under [2^64 + w]. *)
Theorem kprobe_callback_as_tracepoint_callback
    (BogusWhenceVal : Z) (ret : gmap Z Z) (w : Z) :
  - 2 ^ 31 <= w < 2 ^ 31 ->
  checkKprobeEvent BogusWhenceVal ret (lseekKprobeEvent w)
  = checkEvent BogusWhenceVal ret (lseekEvent (w `mod` 2 ^ 64))
  /\ (0 <= w -> w `mod` 2 ^ 64 = w)
  /\ (w < 0 -> w `mod` 2 ^ 64 = 2 ^ 64 + w).
Proof.
  intros Hw. split; [|split].
  - rewrite checkEvent_lseek. unfold checkKprobeEvent, lseekKprobeEvent.
    rewrite decide_False by (intros H; by apply H).
    rewrite decide_False by (intros H; by apply H).
    cbn [lookup list_lookup].
    rewrite decide_False by (intros H; by apply H).
    cbv zeta. destruct (decide (w `mod` 2 ^ 64 = BogusWhenceVal `mod` 2 ^ 64)); reflexivity.
  - intros ?. apply Z.mod_small. lia.
  - intros ?. rewrite <- (Z.mod_add w 1 (2 ^ 64)) by lia.
    rewrite Z.mod_small by lia. lia.
Qed.

Lemma kprobe_callback_witness :
  checkKprobeEvent 4729 ∅ (lseekKprobeEvent (-1))
  = checkEvent 4729 ∅ (lseekEvent (2 ^ 64 - 1)).
Proof.
  refine (proj1 (kprobe_callback_as_tracepoint_callback 4729 ∅ (-1) _)). lia.
Defined.
